(** * silverberg.lock: the Cassandra locking recipe

    A shallow embedding of [silverberg/lock.py] (class [BasicLock], the
    exception [BusyLockError] and the function [with_lock]) and the
    properties of its write / read / verify protocol.

    Twisted's [Deferred] is embedded as a state-and-failure monad over a
    [World]: the state of the CQL client the lock talks to, the time-based
    uuid generator and a trace of the calls the module makes.  A callback
    chain [d.addCallback(f)] is a bind on the success branch,
    [d.addErrback(f)] a bind on the failure branch. *)

From Stdlib Require Import ZArith String List Lia.
From stdpp Require Import base decidable option list gmap strings pretty sorting.

Local Open Scope string_scope.
Local Open Scope Z_scope.
Local Open Scope list_scope.

(** ** Values, rows and failures *)

(** A column value of a result row or of a bound parameter. *)
Inductive cell : Type :=
| CNone
| CStr (s : string)
| CInt (z : Z)
| CUuid (u : Z).

#[global] Instance cell_eq_dec : EqDecision cell.
Proof. solve_decision. Defined.

(** A result row and a parameter dictionary are Python dicts keyed by
    column name. *)
Abbreviation row := (gmap string cell) (only parsing).
Abbreviation params := (gmap string cell) (only parsing).

(** The Python values that travel through the callback chains. *)
Inductive value : Type :=
| VNone
| VBool (b : bool)
| VInt (z : Z)
| VStr (s : string)
| VRows (rows : list row).

(** Exceptions wrapped by a twisted [Failure].  [BusyLockErrorE] holds the
    message built by [BusyLockError.__init__]; [InvalidRequestException]
    is the Thrift exception imported from [silverberg.cassandra.ttypes],
    with its [why] field; the remaining Thrift exceptions and Python's own
    errors follow. *)
Inductive exn : Type :=
| BusyLockErrorE (message : string)
| InvalidRequestException (why : string)
| UnavailableException
| TimedOutException
| IndexError (message : string)
| KeyError (key : string)
| TypeError (message : string)
| OtherException (name message : string).

#[global] Instance exn_eq_dec : EqDecision exn.
Proof. solve_decision. Defined.

(** The outcome a fired [Deferred] holds: a result or a [Failure]. *)
Inductive result (A : Type) : Type :=
| Ok (a : A)
| Err (e : exn).
Arguments Ok {A} a.
Arguments Err {A} e.

(** [class BusyLockError(Exception)]: the message names the lock and the
    table. *)
Definition BusyLockError (lock_table lock_id : string) : exn :=
  BusyLockErrorE ("Unable to acquire lock " +:+ lock_id +:+ " on " +:+ lock_table).

(** [failure.check(BusyLockError)] *)
Definition is_BusyLockError (e : exn) : bool :=
  match e with BusyLockErrorE _ => true | _ => false end.

(** [failure.check(InvalidRequestException)] *)
Definition is_InvalidRequestException (e : exn) : bool :=
  match e with InvalidRequestException _ => true | _ => false end.

(** ** Statements sent to the client *)

(** [silverberg.client.ConsistencyLevel] (Thrift enumeration). *)
Inductive ConsistencyLevel : Type :=
| ONE | QUORUM | LOCAL_QUORUM | EACH_QUORUM | ALL | ANY | TWO | THREE.

(** The five query templates of the module, with the table name (and the
    TTL) already substituted by [str.format]. *)
Inductive statement : Type :=
| SelectLock (cf : string)
| InsertLock (cf : string) (ttl : Z)
| DeleteLock (cf : string)
| CreateTable (cf : string)
| DropTable (cf : string).

#[global] Instance statement_eq_dec : EqDecision statement.
Proof. solve_decision. Defined.

Definition dq : string := String (Ascii.ascii_of_nat 34) EmptyString.

(** The CQL text of a statement, as the source formats it. *)
Definition cql (q : statement) : string :=
  match q with
  | SelectLock cf =>
      "SELECT * FROM " +:+ cf +:+ " WHERE " +:+ dq +:+ "lockId" +:+ dq
        +:+ "=:lockId ORDER BY " +:+ dq +:+ "claimId" +:+ dq +:+ ";"
  | InsertLock cf ttl =>
      "INSERT INTO " +:+ cf +:+ " (" +:+ dq +:+ "lockId" +:+ dq +:+ ","
        +:+ dq +:+ "claimId" +:+ dq
        +:+ ") VALUES (:lockId,:claimId) USING TTL " +:+ pretty ttl +:+ ";"
  | DeleteLock cf =>
      "DELETE FROM " +:+ cf +:+ " WHERE " +:+ dq +:+ "lockId" +:+ dq
        +:+ "=:lockId AND " +:+ dq +:+ "claimId" +:+ dq +:+ "=:claimId;"
  | CreateTable cf =>
      "CREATE TABLE " +:+ cf +:+ "(" +:+ dq +:+ "lockId" +:+ dq +:+ " ascii, "
        +:+ dq +:+ "claimId" +:+ dq +:+ " timeuuid, PRIMARY KEY("
        +:+ dq +:+ "lockId" +:+ dq +:+ ", " +:+ dq +:+ "claimId" +:+ dq +:+ "));"
  | DropTable cf => "DROP TABLE " +:+ cf
  end.

(** What the module does that an observer can see: a statement handed to
    [client.execute], a timer set with [task.deferLater], the call of the
    unit of work of [with_lock], and (ghost) the comparison made by
    [_verify_lock], with the claim identifier found in the first row and
    the one it is compared with. *)
Inductive event : Type :=
| EvExecute (q : statement) (p : params) (c : ConsistencyLevel)
| EvCallLater (delay : Z)
| EvCallFunc
| EvCompare (found : cell) (own : Z).

(** ** The lock object *)

(** The attributes [__init__] sets; the client and the reactor live in the
    [World]. *)
Record BasicLock : Type := mkBasicLock {
  _lock_table : string;
  _lock_id : string;
  _claim_id : Z;
  _ttl : Z
}.

Section Engine.

(** The CQL client: [execute(query, args, consistency)] answers with a
    result or a failure and moves the client (and whatever store is behind
    it) to its next state. *)
Variable ClientState : Type.
Variable execute :
  statement -> params -> ConsistencyLevel -> ClientState -> result value * ClientState.

Record World : Type := mkWorld {
  w_client : ClientState;
  w_uuid : Z;
  w_log : list event
}.

Definition emit (ev : event) (w : World) : World :=
  {| w_client := w_client w; w_uuid := w_uuid w; w_log := ev :: w_log w |}.

(** The world after [client.execute] answered a quorum statement and left
    the client in state [cs]. *)
Definition executed (q : statement) (p : params) (cs : ClientState) (w : World)
  : World :=
  {| w_client := cs; w_uuid := w_uuid w; w_log := EvExecute q p QUORUM :: w_log w |}.

(** *** Deferreds *)

Definition Deferred (A : Type) : Type := World -> result A * World.

Definition succeed {A} (a : A) : Deferred A := fun w => (Ok a, w).
Definition fail {A} (e : exn) : Deferred A := fun w => (Err e, w).

Definition addCallback {A B} (d : Deferred A) (f : A -> Deferred B) : Deferred B :=
  fun w => match d w with
           | (Ok a, w') => f a w'
           | (Err e, w') => (Err e, w')
           end.

Definition addErrback {A} (d : Deferred A) (f : exn -> Deferred A) : Deferred A :=
  fun w => match d w with
           | (Ok a, w') => (Ok a, w')
           | (Err e, w') => f e w'
           end.

Definition addBoth {A B} (d : Deferred A) (f : result A -> Deferred B) : Deferred B :=
  fun w => match d w with (r, w') => f r w' end.

(** A callback that returns its argument: a [Failure] fails the chain. *)
Definition of_result {A} (r : result A) : Deferred A := fun w => (r, w).

(** [self._client.execute(query, args, consistency)] *)
Definition client_execute (q : statement) (p : params) (c : ConsistencyLevel)
  : Deferred value :=
  fun w => match execute q p c (w_client w) with
           | (r, cs) =>
               (r, {| w_client := cs; w_uuid := w_uuid w;
                      w_log := EvExecute q p c :: w_log w |})
           end.

(** [uuid.uuid1()]: time-based, so later calls give later identifiers. *)
Definition uuid1 (w : World) : Z * World :=
  (w_uuid w, {| w_client := w_client w; w_uuid := w_uuid w + 1; w_log := w_log w |}).

(** *** BasicLock *)

(** [BasicLock.__init__] *)
Definition BasicLock_init (lock_table lock_id : string) (ttl : Z) (w : World)
  : BasicLock * World :=
  match uuid1 w with
  | (claim, w') =>
      ({| _lock_table := lock_table; _lock_id := lock_id;
          _claim_id := claim; _ttl := ttl |}, w')
  end.

Definition lock_params (self : BasicLock) : params :=
  {[ "lockId" := CStr (_lock_id self) ]}.

Definition claim_params (self : BasicLock) : params :=
  <[ "lockId" := CStr (_lock_id self) ]> {[ "claimId" := CUuid (_claim_id self) ]}.

(** [BasicLock._read_lock] *)
Definition _read_lock (self : BasicLock) (ignored : value) : Deferred value :=
  client_execute (SelectLock (_lock_table self)) (lock_params self) QUORUM.

(** [BasicLock.release] *)
Definition release (self : BasicLock) : Deferred value :=
  client_execute (DeleteLock (_lock_table self)) (claim_params self) QUORUM.

(** [response[0]], for the subscript ['claimId'] that follows it: the first
    row of a row list; a string has characters, which that subscript
    rejects; nothing else can be subscripted. *)
Definition getitem0 (response : value) : result row :=
  match response with
  | VRows (r :: _) => Ok r
  | VRows [] => Err (IndexError "list index out of range")
  | VStr EmptyString => Err (IndexError "string index out of range")
  | VStr _ => Err (TypeError "string indices must be integers")
  | _ => Err (TypeError "object is not subscriptable")
  end.

(** [BasicLock._verify_lock] *)
Definition _verify_lock (self : BasicLock) (response : value) : Deferred value :=
  match getitem0 response with
  | Err e => fail e
  | Ok first =>
      match first !! "claimId" with
      | None => fail (KeyError "claimId")
      | Some found =>
          fun w =>
            let w := emit (EvCompare found (_claim_id self)) w in
            if decide (found = CUuid (_claim_id self)) then
              succeed (VBool true) w
            else
              addCallback (release self)
                (fun _ => fail (BusyLockError (_lock_table self) (_lock_id self))) w
      end
  end.

(** [BasicLock._write_lock] *)
Definition _write_lock (self : BasicLock) : Deferred value :=
  client_execute (InsertLock (_lock_table self) (_ttl self)) (claim_params self) QUORUM.

(** [BasicLock.ensure_schema] *)
Definition ensure_schema (table_name : string) : Deferred value :=
  let _errback (failure : exn) : Deferred value :=
    (* failure.trap(InvalidRequestException) *)
    if is_InvalidRequestException failure then succeed VNone else fail failure in
  addErrback (client_execute (CreateTable table_name) ∅ QUORUM) _errback.

(** [BasicLock.drop_schema] *)
Definition drop_schema (table_name : string) : Deferred value :=
  client_execute (DropTable table_name) ∅ QUORUM.

(** The closure [_acquire_lock] of [BasicLock.acquire]. *)
Definition _acquire_lock (self : BasicLock) : Deferred value :=
  addCallback (addCallback (_write_lock self) (_read_lock self)) (_verify_lock self).

(** [task.deferLater(self._reactor, timeout, f)]: the timer is set and [f]
    runs when it fires. *)
Definition deferLater {A} (delay : Z) (f : Deferred A) : Deferred A :=
  fun w => f (emit (EvCallLater delay) w).

(** The closure [_lock_not_acquired] of [BasicLock.acquire], with the cell
    [retries[0]] passed along and returned.  The errback calls itself
    through the timer; [fuel] bounds that recursion, and [acquire] gives it
    as much as the test on [max_retry] can ever use (lemma
    [_lock_not_acquired_fuel]). *)
Fixpoint _lock_not_acquired (self : BasicLock) (max_retry timeout : Z)
    (fuel : nat) (retries : Z) (failure : exn) (w : World)
  : result value * Z * World :=
  if is_BusyLockError failure then
    let retries := retries + 1 in
    if retries <=? max_retry then
      match fuel with
      | S fuel' =>
          match deferLater timeout (_acquire_lock self) w with
          | (Ok v, w') => (Ok v, retries, w')
          | (Err e, w') =>
              _lock_not_acquired self max_retry timeout fuel' retries e w'
          end
      | O => (Err failure, retries, w)
      end
    else (Err failure, retries, w)
  else
    (* failure.trap(BusyLockError) raises the failure again *)
    (Err failure, retries, w).

(** [BasicLock.acquire], returning the final value of [retries[0]] next to
    what the returned deferred fires with. *)
Definition acquire_retries (self : BasicLock) (max_retry timeout : Z) (w : World)
  : result value * Z * World :=
  match _acquire_lock self w with
  | (Ok v, w') => (Ok v, 0, w')
  | (Err e, w') =>
      _lock_not_acquired self max_retry timeout (Z.to_nat max_retry) 0 e w'
  end.

(** [BasicLock.acquire] *)
Definition acquire (self : BasicLock) (max_retry timeout : Z) : Deferred value :=
  fun w => match acquire_retries self max_retry timeout w with
           | (r, _, w') => (r, w')
           end.

(** *** with_lock *)

(** [defer.maybeDeferred(func, *args, **kwargs)]: the unit of work runs
    against the client and returns a value or raises. *)
Definition maybeDeferred (func : ClientState -> result value * ClientState)
  : Deferred value :=
  fun w => match func (w_client w) with
           | (r, cs) =>
               (r, {| w_client := cs; w_uuid := w_uuid w;
                      w_log := EvCallFunc :: w_log w |})
           end.

(** The closure [release_lock] of [with_lock]. *)
Definition release_lock (lock : BasicLock) (res : result value) : Deferred value :=
  addCallback (release lock) (fun _ => of_result res).

(** [with_lock] *)
Definition with_lock (lock_table lock_id : string)
    (func : ClientState -> result value * ClientState)
    (ttl max_retry timeout : Z) : Deferred value :=
  fun w =>
    match BasicLock_init lock_table lock_id ttl w with
    | (lock, w0) =>
        let lock_acquired (_ : value) : Deferred value :=
          addBoth (maybeDeferred func) (release_lock lock) in
        addCallback (acquire lock max_retry timeout) lock_acquired w0
    end.

End Engine.

Arguments mkWorld {ClientState} w_client w_uuid w_log.
Arguments w_client {ClientState} w.
Arguments w_uuid {ClientState} w.
Arguments w_log {ClientState} w.
Arguments emit {ClientState} ev w.
Arguments executed {ClientState} q p cs w.
Arguments succeed {ClientState A} a w.
Arguments fail {ClientState A} e w.
Arguments addCallback {ClientState A B} d f w.
Arguments addErrback {ClientState A} d f w.
Arguments addBoth {ClientState A B} d f w.
Arguments of_result {ClientState A} r w.
Arguments client_execute {ClientState} execute q p c w.
Arguments uuid1 {ClientState} w.
Arguments BasicLock_init {ClientState} lock_table lock_id ttl w.
Arguments _read_lock {ClientState} execute self ignored w.
Arguments release {ClientState} execute self w.
Arguments _verify_lock {ClientState} execute self response w.
Arguments _write_lock {ClientState} execute self w.
Arguments ensure_schema {ClientState} execute table_name w.
Arguments drop_schema {ClientState} execute table_name w.
Arguments _acquire_lock {ClientState} execute self w.
Arguments deferLater {ClientState A} delay f w.
Arguments _lock_not_acquired {ClientState} execute self max_retry timeout fuel retries failure w.
Arguments acquire_retries {ClientState} execute self max_retry timeout w.
Arguments acquire {ClientState} execute self max_retry timeout w.
Arguments maybeDeferred {ClientState} func w.
Arguments release_lock {ClientState} execute lock res w.
Arguments with_lock {ClientState} execute lock_table lock_id func ttl max_retry timeout w.

(** ** The storage gateway *)

(** Modelled from the spec: the Storage Gateway ([silverberg.client.CQLClient]
    and the Cassandra cluster behind it), which is not part of [lock.py].
    It is one logical table store read and written at quorum, so a read sees
    every earlier write.  A claim record is a row keyed by (table, lock
    name, claim identifier) that carries the time at which it expires; an
    insert writes or overwrites the row, a delete removes it whether or not
    it is there, a select returns the live rows of the lock name ordered by
    claim identifier, earliest first.  Creating a table that exists fails
    with the schema-exists invalid request; dropping a table removes its
    rows.  Every statement takes [latency] units of time. *)
Module Gateway.

Record Store : Type := mkStore {
  st_tables : gset string;
  st_rows : gmap (string * string * Z) Z;
  st_now : Z
}.

(** The claim record is in the store and has not expired. *)
Definition live (s : Store) (cf lock_id : string) (claim : Z) : Prop :=
  ∃ expires, st_rows s !! (cf, lock_id, claim) = Some expires ∧ st_now s < expires.

#[global] Instance live_dec s cf lock_id claim : Decision (live s cf lock_id claim).
Proof.
  unfold live. destruct (st_rows s !! (cf, lock_id, claim)) as [e|] eqn:E.
  - destruct (decide (st_now s < e)) as [H|H].
    + left. eauto.
    + right. intros (e' & [= <-] & ?). done.
  - right. intros (e' & [=] & ?).
Defined.

Definition select_claim (cf lock_id : string) (now : Z)
    (kv : string * string * Z * Z) : option Z :=
  match kv with
  | (t, l, claim, expires) =>
      if decide (t = cf ∧ l = lock_id ∧ now < expires) then Some claim else None
  end.

(** The live claim identifiers of a lock name, earliest first. *)
Definition claims_of (cf lock_id : string) (s : Store) : list Z :=
  merge_sort Z.le (omap (select_claim cf lock_id (st_now s)) (map_to_list (st_rows s))).

Definition mkrow (lock_id : string) (claim : Z) : row :=
  <[ "lockId" := CStr lock_id ]> {[ "claimId" := CUuid claim ]}.

Definition tick (latency : Z) (s : Store) : Store :=
  {| st_tables := st_tables s; st_rows := st_rows s; st_now := st_now s + latency |}.

Definition with_rows (rows : gmap (string * string * Z) Z) (s : Store) : Store :=
  {| st_tables := st_tables s; st_rows := rows; st_now := st_now s |}.

Definition unbound : exn := InvalidRequestException "unbound or ill-typed variable".
Definition exists_already : exn := InvalidRequestException "table already exists".
Definition unconfigured : exn := InvalidRequestException "unconfigured table".

Definition gateway_execute (latency : Z) (q : statement) (p : params)
    (c : ConsistencyLevel) (s : Store) : result value * Store :=
  match q with
  | SelectLock cf =>
      match p !! "lockId" with
      | Some (CStr l) => (Ok (VRows (mkrow l <$> claims_of cf l s)), tick latency s)
      | _ => (Err unbound, tick latency s)
      end
  | InsertLock cf ttl =>
      match p !! "lockId", p !! "claimId" with
      | Some (CStr l), Some (CUuid u) =>
          (Ok VNone,
           tick latency (with_rows (<[ (cf, l, u) := st_now s + ttl ]> (st_rows s)) s))
      | _, _ => (Err unbound, tick latency s)
      end
  | DeleteLock cf =>
      match p !! "lockId", p !! "claimId" with
      | Some (CStr l), Some (CUuid u) =>
          (Ok VNone, tick latency (with_rows (delete (cf, l, u) (st_rows s)) s))
      | _, _ => (Err unbound, tick latency s)
      end
  | CreateTable cf =>
      if decide (cf ∈ st_tables s) then (Err exists_already, tick latency s)
      else (Ok VNone,
            tick latency {| st_tables := {[ cf ]} ∪ st_tables s;
                            st_rows := st_rows s; st_now := st_now s |})
  | DropTable cf =>
      if decide (cf ∈ st_tables s) then
        (Ok VNone,
         tick latency {| st_tables := st_tables s ∖ {[ cf ]};
                         st_rows := filter (λ kv, kv.1.1.1 ≠ cf) (st_rows s);
                         st_now := st_now s |})
      else (Err unconfigured, tick latency s)
  end.

End Gateway.

(** ** Scenarios on the storage gateway *)

Module Scenario.
Import Gateway.

Definition empty_store : Store :=
  {| st_tables := {[ "locks" ]}; st_rows := ∅; st_now := 0 |}.

Definition world0 : World Store :=
  {| w_client := empty_store; w_uuid := 1; w_log := [] |}.

Definition engineA : BasicLock :=
  {| _lock_table := "locks"; _lock_id := "jobs-queue"; _claim_id := 1; _ttl := 5 |}.
Definition engineB : BasicLock :=
  {| _lock_table := "locks"; _lock_id := "jobs-queue"; _claim_id := 2; _ttl := 5 |}.

Definition ex := gateway_execute 0.

(** A gateway on which every statement outlasts the TTL of [engineA]. *)
Definition slow_ex := gateway_execute 5.

(** A gateway that loses quorum on deletes. *)
Definition flaky_ex (q : statement) (p : params) (c : ConsistencyLevel) (s : Store)
  : result value * Store :=
  match q with
  | DeleteLock _ => (Err TimedOutException, s)
  | _ => gateway_execute 0 q p c s
  end.

(** A gateway in front of a cluster with no connection left. *)
Definition down_ex (q : statement) (p : params) (c : ConsistencyLevel) (s : Store)
  : result value * Store :=
  (Err UnavailableException, s).

(** A gateway that validates table names before it runs a statement. *)
Definition strict_ex (q : statement) (p : params) (c : ConsistencyLevel) (s : Store)
  : result value * Store :=
  match q with
  | CreateTable "my-locks" =>
      (Err (InvalidRequestException "line 1:15 mismatched input '-'"), s)
  | _ => gateway_execute 0 q p c s
  end.

(** The store once [engineA] holds the lock for good. *)
Definition held_store : Store :=
  {| st_tables := {[ "locks" ]};
     st_rows := {[ ("locks", "jobs-queue", 1) := 1000 ]};
     st_now := 0 |}.

Definition world_held : World Store :=
  {| w_client := held_store; w_uuid := 3; w_log := [] |}.

(** Both claims written, A's first. *)
Definition both_store : Store :=
  {| st_tables := {[ "locks" ]};
     st_rows := <[ ("locks", "jobs-queue", 2) := 5 ]>
                  {[ ("locks", "jobs-queue", 1) := 5 ]};
     st_now := 0 |}.

Definition world_both : World Store :=
  {| w_client := both_store; w_uuid := 3; w_log := [] |}.

Definition rowA : row := mkrow "jobs-queue" 1.
Definition rowB : row := mkrow "jobs-queue" 2.

(** Units of work. *)
Definition work_ok (s : Store) : result value * Store := (Ok (VInt 42), s).
Definition work_raises (s : Store) : result value * Store :=
  (Err (OtherException "ValueError" "bad job"), s).

End Scenario.

(** ** Observations on the trace *)

(** The statement that opens a write / read / verify attempt. *)
Definition is_write (ev : event) : bool :=
  match ev with EvExecute (InsertLock _ _) _ _ => true | _ => false end.

Definition is_timer (ev : event) : bool :=
  match ev with EvCallLater _ => true | _ => false end.

(** The delete statement [release] of [self] issues. *)
Definition is_release_of (self : BasicLock) (ev : event) : bool :=
  match ev with
  | EvExecute (DeleteLock cf) p QUORUM =>
      bool_decide (cf = _lock_table self ∧ p = claim_params self)
  | _ => false
  end.

Definition count (f : event -> bool) (evs : list event) : nat :=
  length (filter (λ ev, f ev = true) evs).

(** The event is made in the name of the claim identifier [claim]: a write
    or a delete binds it as [claimId], a comparison compares with it. *)
Definition bids_as (claim : Z) (ev : event) : bool :=
  match ev with
  | EvExecute (InsertLock _ _) p _ | EvExecute (DeleteLock _) p _ =>
      bool_decide (p !! "claimId" = Some (CUuid claim))
  | EvExecute _ _ _ => true
  | EvCompare _ own => bool_decide (own = claim)
  | EvCallLater _ | EvCallFunc => true
  end.

(** Persistent contention: the next [n] attempts, the first one from [w]
    and each later one after the timer, all end in a BusyLock failure. *)
Fixpoint contended {ClientState}
    (execute : statement -> params -> ConsistencyLevel -> ClientState
               -> result value * ClientState)
    (self : BasicLock) (timeout : Z) (n : nat) (w : World ClientState) : bool :=
  match n with
  | O => true
  | S n' =>
      match _acquire_lock execute self w with
      | (Err e, w') =>
          is_BusyLockError e
          && contended execute self timeout n' (emit (EvCallLater timeout) w')
      | (Ok _, _) => false
      end
  end.

(** The read and verify steps of an attempt, from the world in which the
    read is issued. *)
Definition read_verify {ClientState}
    (execute : statement -> params -> ConsistencyLevel -> ClientState
               -> result value * ClientState)
    (self : BasicLock) : Deferred ClientState value :=
  addCallback (_read_lock execute self VNone) (_verify_lock execute self).

(** ** Concurrent attempts *)

(** Where an attempt of an engine stands.  Every [client.execute] gives the
    reactor back its turn, so the callbacks of other engines can run before
    the answer comes; a callback itself runs to its end.  [seen] is ghost:
    the store at the instant the ordered read was taken. *)
Inductive pc : Type :=
| Writing
| Reading (written : value)
| Verifying (seen : Gateway.Store) (response : value)
| Done (seen : option Gateway.Store) (outcome : result value).

(** Whose callback runs next; [Interfere] is anything else that happens to
    the store: other bidders, the passing of time, rows that expire. *)
Inductive turn : Type :=
| TurnA
| TurnB
| Interfere (f : Gateway.Store -> Gateway.Store).

Record system : Type := mkSystem {
  sys_world : World Gateway.Store;
  sys_a : pc;
  sys_b : pc
}.

(** The next callback of the chain [_acquire_lock] builds. *)
Definition step_engine (latency : Z) (self : BasicLock) (p : pc)
    (w : World Gateway.Store) : pc * World Gateway.Store :=
  match p with
  | Writing =>
      match _write_lock (Gateway.gateway_execute latency) self w with
      | (Ok v, w') => (Reading v, w')
      | (Err e, w') => (Done None (Err e), w')
      end
  | Reading written =>
      match _read_lock (Gateway.gateway_execute latency) self written w with
      | (Ok v, w') => (Verifying (w_client w) v, w')
      | (Err e, w') => (Done (Some (w_client w)) (Err e), w')
      end
  | Verifying seen response =>
      match _verify_lock (Gateway.gateway_execute latency) self response w with
      | (r, w') => (Done (Some seen) r, w')
      end
  | Done _ _ => (p, w)
  end.

Definition step (latency : Z) (a b : BasicLock) (t : turn) (sys : system) : system :=
  match t with
  | TurnA =>
      match step_engine latency a (sys_a sys) (sys_world sys) with
      | (p, w) => {| sys_world := w; sys_a := p; sys_b := sys_b sys |}
      end
  | TurnB =>
      match step_engine latency b (sys_b sys) (sys_world sys) with
      | (p, w) => {| sys_world := w; sys_a := sys_a sys; sys_b := p |}
      end
  | Interfere f =>
      {| sys_world := {| w_client := f (w_client (sys_world sys));
                         w_uuid := w_uuid (sys_world sys);
                         w_log := w_log (sys_world sys) |};
         sys_a := sys_a sys; sys_b := sys_b sys |}
  end.

Fixpoint run (latency : Z) (a b : BasicLock) (schedule : list turn) (sys : system)
  : system :=
  match schedule with
  | [] => sys
  | t :: schedule' => run latency a b schedule' (step latency a b t sys)
  end.

(** Both engines about to start their attempt. *)
Definition start (w : World Gateway.Store) : system :=
  {| sys_world := w; sys_a := Writing; sys_b := Writing |}.

(** The engine observed success, at an instant at which the claim records
    [c1] and [c2] of its lock name were both live. *)
Definition won_among (self : BasicLock) (c1 c2 : Z) (p : pc) : Prop :=
  ∃ seen,
    p = Done (Some seen) (Ok (VBool true))
    ∧ Gateway.live seen (_lock_table self) (_lock_id self) c1
    ∧ Gateway.live seen (_lock_table self) (_lock_id self) c2.

(** What an attempt that has read knows: the response it verifies is the
    ordered read of the store it saw, and it ended in success only with its
    own claim at the head of that read. *)
Definition pc_sound (self : BasicLock) (p : pc) : Prop :=
  match p with
  | Verifying seen response =>
      response = VRows (Gateway.mkrow (_lock_id self)
                          <$> Gateway.claims_of (_lock_table self) (_lock_id self) seen)
  | Done (Some seen) (Ok (VBool true)) =>
      head (Gateway.claims_of (_lock_table self) (_lock_id self) seen)
      = Some (_claim_id self)
  | _ => True
  end.

(** ** Further observations *)

Definition is_func (ev : event) : bool :=
  match ev with EvCallFunc => true | _ => false end.

(** The three statements of an engine, as it issues them. *)
Definition write_of (self : BasicLock) : event :=
  EvExecute (InsertLock (_lock_table self) (_ttl self)) (claim_params self) QUORUM.
Definition read_of (self : BasicLock) : event :=
  EvExecute (SelectLock (_lock_table self)) (lock_params self) QUORUM.
Definition delete_of (self : BasicLock) : event :=
  EvExecute (DeleteLock (_lock_table self)) (claim_params self) QUORUM.

(** The traces one attempt can leave (latest event first): it stops at the
    write or at the read when that fails or returns no usable row,
    after the comparison when the first row is its own, after the delete
    when it is not. *)
Definition attempt_shape (self : BasicLock) (evs : list event) : Prop :=
  evs = [write_of self]
  ∨ evs = [read_of self; write_of self]
  ∨ evs = [EvCompare (CUuid (_claim_id self)) (_claim_id self);
           read_of self; write_of self]
  ∨ ∃ found,
      found ≠ CUuid (_claim_id self)
      ∧ evs = [delete_of self; EvCompare found (_claim_id self);
               read_of self; write_of self].

(** The event is one an [acquire] of [self] with the delay [timeout] makes:
    one of its three statements, at quorum, on its own table and lock name
    and under its own claim identifier; a timer of that delay; a comparison
    with its own claim identifier. *)
Definition own_event (self : BasicLock) (timeout : Z) (ev : event) : Prop :=
  match ev with
  | EvExecute _ _ _ => ev = write_of self ∨ ev = read_of self ∨ ev = delete_of self
  | EvCallLater delay => delay = timeout
  | EvCompare _ own => own = _claim_id self
  | EvCallFunc => False
  end.

(** The world in which attempt number [k] (counted from 0) of an [acquire]
    starts, the attempts before it having failed. *)
Fixpoint retry_world {ClientState}
    (execute : statement -> params -> ConsistencyLevel -> ClientState
               -> result value * ClientState)
    (self : BasicLock) (timeout : Z) (k : nat) (w : World ClientState)
  : World ClientState :=
  match k with
  | O => w
  | S k' =>
      retry_world execute self timeout k'
        (emit (EvCallLater timeout) (_acquire_lock execute self w).2)
  end.

(** The attempt ended in a BusyLock failure, the one outcome [acquire]
    retries on. *)
Definition is_busy_outcome (r : result value) : bool :=
  match r with
  | Err e => is_BusyLockError e
  | Ok _ => false
  end.

(** The store after an attempt or a whole [acquire], by its outcome: the
    schema and every record but the engine's own are as before; the
    engine's record is absent after a BusyLock failure and present after
    any other outcome. *)
Definition store_after (self : BasicLock) (before : Gateway.Store) (r : result value)
    (after : Gateway.Store) : Prop :=
  let key := (_lock_table self, _lock_id self, _claim_id self) in
  Gateway.st_tables after = Gateway.st_tables before
  ∧ (∀ k, k ≠ key -> Gateway.st_rows after !! k = Gateway.st_rows before !! k)
  ∧ if is_busy_outcome r then Gateway.st_rows after !! key = None
    else is_Some (Gateway.st_rows after !! key).

(** [response[0]['claimId']], the value [_verify_lock] compares. *)
Definition first_claim (response : value) : result cell :=
  match getitem0 response with
  | Err e => Err e
  | Ok first =>
      match first !! "claimId" with
      | Some found => Ok found
      | None => Err (KeyError "claimId")
      end
  end.

(** ** Further scenarios *)

Module Scenario2.
Import Gateway Scenario.

(** A gateway on which every statement takes one unit of time. *)
Definition tick_ex := gateway_execute 1.

(** Engine A holds the lock, and its record expires at time 7. *)
Definition expiring_store : Store :=
  {| st_tables := {[ "locks" ]};
     st_rows := {[ ("locks", "jobs-queue", 1) := 7 ]};
     st_now := 0 |}.

Definition world_expiring : World Store :=
  {| w_client := expiring_store; w_uuid := 3; w_log := [] |}.

(** A unit of work that wipes the lock table. *)
Definition work_wipes (s : Store) : result value * Store :=
  (Ok (VStr "wiped"), with_rows ∅ s).

(** A gateway whose rows come back without the claim column. *)
Definition keyless_ex (q : statement) (p : params) (c : ConsistencyLevel) (s : Store)
  : result value * Store :=
  match q with
  | SelectLock _ => (Ok (VRows [ {[ "lockId" := CStr "jobs-queue" ]} ]), s)
  | _ => gateway_execute 0 q p c s
  end.

End Scenario2.

(** * Properties *)

Ltac unfold_deferred :=
  unfold addCallback, addErrback, addBoth, succeed, fail, of_result,
    client_execute, deferLater, maybeDeferred, emit in *;
  cbn [fst snd w_client w_uuid w_log] in *.

Ltac trace_done Hc :=
  split; [reflexivity|]; cbn; rewrite ?Hc;
  repeat split; auto; repeat constructor; cbn; rewrite ?Hc;
  by rewrite ?bool_decide_eq_true.

Section EngineProperties.

Context {ClientState : Type}.
Variable execute :
  statement -> params -> ConsistencyLevel -> ClientState -> result value * ClientState.

Implicit Types (self : BasicLock) (w : World ClientState) (e : exn).

Lemma client_execute_eq q p w :
  client_execute execute q p QUORUM w =
  ((execute q p QUORUM (w_client w)).1,
   executed q p (execute q p QUORUM (w_client w)).2 w).
Proof. unfold client_execute, executed. by destruct (execute _ _ _ _). Qed.

Lemma release_eq self w :
  release execute self w =
  ((execute (DeleteLock (_lock_table self)) (claim_params self) QUORUM (w_client w)).1,
   executed (DeleteLock (_lock_table self)) (claim_params self)
     (execute (DeleteLock (_lock_table self)) (claim_params self) QUORUM (w_client w)).2 w).
Proof. apply client_execute_eq. Qed.

(** *** The verify step *)

Lemma verify_lock_own self first rest w :
  first !! "claimId" = Some (CUuid (_claim_id self)) ->
  _verify_lock execute self (VRows (first :: rest)) w =
  (Ok (VBool true), emit (EvCompare (CUuid (_claim_id self)) (_claim_id self)) w).
Proof.
  intros Hfirst. unfold _verify_lock. cbn [getitem0]. rewrite Hfirst.
  by rewrite decide_True.
Qed.

Lemma verify_lock_other self first rest found w :
  first !! "claimId" = Some found ->
  found ≠ CUuid (_claim_id self) ->
  _verify_lock execute self (VRows (first :: rest)) w =
  match release execute self (emit (EvCompare found (_claim_id self)) w) with
  | (Ok _, w') => (Err (BusyLockError (_lock_table self) (_lock_id self)), w')
  | (Err e, w') => (Err e, w')
  end.
Proof.
  intros Hfirst Hne. unfold _verify_lock. cbn [getitem0]. rewrite Hfirst.
  by rewrite decide_False.
Qed.

Lemma verify_lock_empty self w :
  _verify_lock execute self (VRows []) w =
  (Err (IndexError "list index out of range"), w).
Proof. reflexivity. Qed.

(** *** One attempt *)

Lemma claim_params_claimId self :
  claim_params self !! "claimId" = Some (CUuid (_claim_id self)).
Proof. unfold claim_params. by rewrite lookup_insert_ne, lookup_singleton_eq. Qed.

Lemma claim_params_lockId self :
  claim_params self !! "lockId" = Some (CStr (_lock_id self)).
Proof. unfold claim_params. by rewrite lookup_insert_eq. Qed.

Lemma lock_params_lockId self :
  lock_params self !! "lockId" = Some (CStr (_lock_id self)).
Proof. unfold lock_params. by rewrite lookup_singleton_eq. Qed.

(** What one attempt leaves on the trace: one write, no timer, nothing in
    another bidder's name, and the uuid generator as it was. *)
Lemma acquire_lock_trace self w :
  ∃ evs,
    w_log (_acquire_lock execute self w).2 = evs ++ w_log w
    ∧ count is_write evs = 1%nat
    ∧ count is_timer evs = 0%nat
    ∧ Forall (λ ev, bids_as (_claim_id self) ev = true) evs
    ∧ w_uuid (_acquire_lock execute self w).2 = w_uuid w.
Proof.
  pose proof (claim_params_claimId self) as Hc.
  unfold _acquire_lock, _write_lock, _read_lock, _verify_lock, release.
  unfold_deferred.
  destruct (execute (InsertLock _ _) _ _ _) as [[v1|e1] cs1]; cbn;
    [|eexists [_]; trace_done Hc].
  destruct (execute (SelectLock _) _ _ _) as [[v2|e2] cs2]; cbn;
    [|eexists [_; _]; trace_done Hc].
  destruct (getitem0 v2) as [first|e3]; cbn; [|eexists [_; _]; trace_done Hc].
  destruct (first !! "claimId") as [found|]; cbn; [|eexists [_; _]; trace_done Hc].
  destruct (decide (found = _)) as [->|Hne]; cbn; [eexists [_; _; _]; trace_done Hc|].
  destruct (execute (DeleteLock _) _ _ _) as [[v4|e4] cs4]; cbn;
    eexists [_; _; _; _]; trace_done Hc.
Qed.

(** *** The retry loop *)

(** Fuel beyond what the test on [max_retry] allows is never used. *)
Lemma _lock_not_acquired_fuel self max_retry timeout fuel retries e w :
  (Z.to_nat (max_retry - retries) <= fuel)%nat ->
  _lock_not_acquired execute self max_retry timeout (S fuel) retries e w =
  _lock_not_acquired execute self max_retry timeout fuel retries e w.
Proof.
  revert retries e w.
  induction fuel as [|fuel IH]; intros retries e w Hfuel.
  - cbn. destruct (is_BusyLockError e); [|done].
    destruct (Z.leb_spec (retries + 1) max_retry); [lia|done].
  - cbn [_lock_not_acquired]. destruct (is_BusyLockError e); [|done].
    destruct (Z.leb_spec (retries + 1) max_retry); [|done].
    destruct (deferLater timeout (_acquire_lock execute self) w) as [[v|e'] w']; [done|].
    change (_lock_not_acquired execute self max_retry timeout (S fuel) (retries + 1) e' w' =
            _lock_not_acquired execute self max_retry timeout fuel (retries + 1) e' w').
    apply IH. lia.
Qed.

Lemma _lock_not_acquired_fuel_add self max_retry timeout retries e w (k : nat) :
  _lock_not_acquired execute self max_retry timeout
    (Z.to_nat (max_retry - retries) + k) retries e w =
  _lock_not_acquired execute self max_retry timeout
    (Z.to_nat (max_retry - retries)) retries e w.
Proof.
  induction k as [|k IH]; [by rewrite Nat.add_0_r|].
  rewrite Nat.add_succ_r, _lock_not_acquired_fuel; [done | lia].
Qed.

Lemma count_app f (evs1 evs2 : list event) :
  count f (evs1 ++ evs2) = (count f evs1 + count f evs2)%nat.
Proof. unfold count. by rewrite filter_app, length_app. Qed.

(** The trace of the retry loop is a trace of attempts of one bidder
    spaced by timers. *)
Lemma _lock_not_acquired_trace self max_retry timeout fuel retries e w :
  ∃ evs,
    w_log (_lock_not_acquired execute self max_retry timeout fuel retries e w).2
      = evs ++ w_log w
    ∧ Forall (λ ev, bids_as (_claim_id self) ev = true) evs
    ∧ w_uuid (_lock_not_acquired execute self max_retry timeout fuel retries e w).2
      = w_uuid w.
Proof.
  revert retries e w.
  induction fuel as [|fuel IH]; intros retries e w; cbn [_lock_not_acquired].
  - exists []. by destruct (is_BusyLockError e), (retries + 1 <=? max_retry).
  - destruct (is_BusyLockError e); [|by exists []].
    destruct (retries + 1 <=? max_retry); [|by exists []].
    unfold deferLater.
    destruct (acquire_lock_trace self (emit (EvCallLater timeout) w))
      as (evs1 & Hlog1 & _ & _ & Hbid1 & Huuid1).
    destruct (_acquire_lock execute self (emit (EvCallLater timeout) w))
      as [[v|e'] w'] eqn:Hattempt; cbn [snd] in *.
    + exists (evs1 ++ [EvCallLater timeout]).
      rewrite Hlog1, <- app_assoc. repeat split; [|done].
      apply Forall_app. split; [done|]. by repeat constructor.
    + destruct (IH (retries + 1) e' w') as (evs & Hlog & Hbid & Huuid).
      exists (evs ++ evs1 ++ [EvCallLater timeout]).
      rewrite Hlog, Hlog1, Huuid, Huuid1, <- !app_assoc. repeat split.
      rewrite !Forall_app. repeat split; [done..|]. by repeat constructor.
Qed.

(** Under contention the loop uses every retry it has. *)
Lemma _lock_not_acquired_contended self (N timeout : Z) fuel retries e w :
  is_BusyLockError e = true ->
  retries + Z.of_nat fuel = N ->
  contended execute self timeout fuel (emit (EvCallLater timeout) w) = true ->
  ∃ e' w' evs,
    _lock_not_acquired execute self N timeout fuel retries e w = (Err e', N + 1, w')
    ∧ is_BusyLockError e' = true
    ∧ w_log w' = evs ++ w_log w
    ∧ count is_write evs = fuel
    ∧ count is_timer evs = fuel.
Proof.
  revert retries e w.
  induction fuel as [|fuel IH]; intros retries e w Hbusy Hfuel Hcont;
    cbn [_lock_not_acquired]; rewrite Hbusy.
  - destruct (Z.leb_spec (retries + 1) N); [lia|].
    exists e, w, []. repeat split; [|done]. do 3 f_equal. lia.
  - destruct (Z.leb_spec (retries + 1) N); [|lia].
    cbn [contended] in Hcont. unfold deferLater.
    destruct (acquire_lock_trace self (emit (EvCallLater timeout) w))
      as (evs1 & Hlog1 & Hw1 & Ht1 & _ & _).
    destruct (_acquire_lock execute self (emit (EvCallLater timeout) w))
      as [[v|e1] w1] eqn:Hattempt; [done|]. cbn [snd] in *.
    apply andb_true_iff in Hcont as [Hbusy1 Hcont].
    assert (retries + 1 + Z.of_nat fuel = N) as Hfuel' by (rewrite Nat2Z.inj_succ in Hfuel; lia).
    destruct (IH (retries + 1) e1 w1 Hbusy1 Hfuel' Hcont)
      as (e' & w' & evs & Hloop & Hbusy' & Hlog & Hw & Ht).
    exists e', w', (evs ++ evs1 ++ [EvCallLater timeout]).
    rewrite Hloop, Hlog, Hlog1, !count_app, Hw, Ht, Hw1, Ht1, <- !app_assoc.
    repeat split; [done|cbn; case_decide; try done; cbn; lia..].
Qed.

(** The verify step on a read with a first row, in one equation. *)
Lemma _verify_lock_eq self first rest found w :
  first !! "claimId" = Some found ->
  _verify_lock execute self (VRows (first :: rest)) w =
  let w1 := emit (EvCompare found (_claim_id self)) w in
  let q := DeleteLock (_lock_table self) in
  let del := execute q (claim_params self) QUORUM (w_client w) in
  if decide (found = CUuid (_claim_id self)) then (Ok (VBool true), w1)
  else (match del.1 with
        | Ok _ => Err (BusyLockError (_lock_table self) (_lock_id self))
        | Err e => Err e
        end,
        executed q (claim_params self) del.2 w1).
Proof.
  intros Hfirst. cbn zeta. case_decide as Hfound.
  - subst found. by apply verify_lock_own.
  - rewrite (verify_lock_other _ _ _ _ _ Hfirst Hfound), release_eq.
    cbn [w_client emit]. by destruct (execute _ _ _ _) as [[?|?] ?].
Qed.

(** *** Claims on the verify step *)

(** C8 (as amended).  When the first row of the ordered read carries the
    engine's own claim identifier the attempt succeeds with [True].  When it
    carries another one, the engine issues the delete of its own claim
    record and, when that delete succeeds, fails with the BusyLock error
    built from its lock table and lock name; a failure of the delete itself
    is what the attempt fails with instead. *)
Theorem verify_lock_first_row self first rest found w :
  first !! "claimId" = Some found ->
  _verify_lock execute self (VRows (first :: rest)) w =
  let w1 := emit (EvCompare found (_claim_id self)) w in
  let q := DeleteLock (_lock_table self) in
  let del := execute q (claim_params self) QUORUM (w_client w) in
  if decide (found = CUuid (_claim_id self)) then (Ok (VBool true), w1)
  else (match del.1 with
        | Ok _ => Err (BusyLockError (_lock_table self) (_lock_id self))
        | Err e => Err e
        end,
        executed q (claim_params self) del.2 w1).
Proof. apply _verify_lock_eq. Qed.

(** C10.  An ordered read that returns no row makes [_verify_lock] fail
    with an indexing error, not with success and not with BusyLock, and
    without any delete; the whole attempt then fails with that error and
    [acquire] hands it to the caller without a retry.  With at least one
    row (that has a claim identifier) the verify step does end in success,
    in BusyLock or in the failure of its own delete. *)
Theorem acquire_lock_empty_read self w v cs1 cs2 :
  execute (InsertLock (_lock_table self) (_ttl self)) (claim_params self) QUORUM
    (w_client w) = (Ok v, cs1) ->
  execute (SelectLock (_lock_table self)) (lock_params self) QUORUM cs1
    = (Ok (VRows []), cs2) ->
  let w2 := executed (SelectLock (_lock_table self)) (lock_params self) cs2
              (executed (InsertLock (_lock_table self) (_ttl self))
                 (claim_params self) cs1 w) in
  let e := IndexError "list index out of range" in
  _verify_lock execute self (VRows []) w2 = (Err e, w2)
  ∧ is_BusyLockError e = false
  ∧ _acquire_lock execute self w = (Err e, w2)
  ∧ (∀ max_retry timeout, acquire execute self max_retry timeout w = (Err e, w2))
  ∧ (∀ first rest found w',
       first !! "claimId" = Some found ->
       let out := (_verify_lock execute self (VRows (first :: rest)) w').1 in
       out = Ok (VBool true)
       ∨ out = Err (BusyLockError (_lock_table self) (_lock_id self))
       ∨ ∃ e',
           out = Err e'
           ∧ (release execute self (emit (EvCompare found (_claim_id self)) w')).1
             = Err e').
Proof.
  intros Hwrite Hread w2 e.
  assert (_acquire_lock execute self w = (Err e, w2)) as Hattempt.
  { unfold _acquire_lock, _write_lock, _read_lock. unfold_deferred.
    rewrite Hwrite. cbn. by rewrite Hread. }
  repeat split; [done|..].
  - intros max_retry timeout. unfold acquire, acquire_retries.
    rewrite Hattempt. by destruct (Z.to_nat max_retry).
  - intros first rest found w' Hfirst.
    rewrite (_verify_lock_eq _ _ _ _ _ Hfirst), release_eq.
    cbn zeta. case_decide; [by left|]. cbn [fst emit w_client].
    destruct (execute _ _ _ _).1 as [?|e']; [by right; left|].
    right; right. eauto.
Qed.

(** *** Claims on the retry loop *)

(** C2.  [__init__] draws one claim identifier from the uuid generator and
    touches nothing else; an [acquire] of that engine, whatever its retry
    policy and the world it runs in, draws none, and every write, every
    delete and every verify comparison on its trace is made with the claim
    identifier drawn at construction. *)
Theorem acquire_same_bidder lock_table lock_id ttl w :
  let self := (BasicLock_init lock_table lock_id ttl w).1 in
  let w0 := (BasicLock_init lock_table lock_id ttl w).2 in
  _claim_id self = w_uuid w
  ∧ w_uuid w0 = w_uuid w + 1
  ∧ w_log w0 = w_log w
  ∧ w_client w0 = w_client w
  ∧ ∀ max_retry timeout w1,
      ∃ evs,
        w_log (acquire execute self max_retry timeout w1).2 = evs ++ w_log w1
        ∧ Forall (λ ev, bids_as (_claim_id self) ev = true) evs
        ∧ w_uuid (acquire execute self max_retry timeout w1).2 = w_uuid w1.
Proof.
  cbn. repeat split. intros max_retry timeout w1.
  set (self := {| _lock_table := lock_table |}).
  unfold acquire, acquire_retries.
  destruct (acquire_lock_trace self w1) as (evs1 & Hlog1 & _ & _ & Hbid1 & Huuid1).
  destruct (_acquire_lock execute self w1) as [[v|e] w'] eqn:Hattempt; cbn [snd] in *.
  { by exists evs1. }
  destruct (_lock_not_acquired_trace self max_retry timeout (Z.to_nat max_retry) 0 e w')
    as (evs & Hlog & Hbid & Huuid).
  destruct (_lock_not_acquired _ _ _ _ _ _ _ _) as [[r n] w'']; cbn [snd] in *.
  exists (evs ++ evs1). rewrite Hlog, Hlog1, Huuid, Huuid1, <- app_assoc.
  repeat split. by apply Forall_app.
Qed.

(** C3.  With [max_retry = N >= 0] and every attempt ending in BusyLock,
    [acquire] makes exactly [N + 1] attempts, sets the timer [N] times
    between them, leaves the retry count at [N + 1] and fires with the
    BusyLock failure. *)
Theorem acquire_exhausts_retries self (N timeout : Z) w :
  0 <= N ->
  contended execute self timeout (Z.to_nat N + 1) w = true ->
  ∃ e w' evs,
    acquire_retries execute self N timeout w = (Err e, N + 1, w')
    ∧ acquire execute self N timeout w = (Err e, w')
    ∧ is_BusyLockError e = true
    ∧ w_log w' = evs ++ w_log w
    ∧ count is_write evs = Z.to_nat (N + 1)
    ∧ count is_timer evs = Z.to_nat N.
Proof.
  intros HN Hcont. rewrite Nat.add_1_r in Hcont. cbn [contended] in Hcont.
  unfold acquire, acquire_retries.
  destruct (acquire_lock_trace self w) as (evs1 & Hlog1 & Hw1 & Ht1 & _ & _).
  destruct (_acquire_lock execute self w) as [[v|e0] w0] eqn:Hattempt; [done|].
  cbn [snd] in *. apply andb_true_iff in Hcont as [Hbusy0 Hcont].
  destruct (_lock_not_acquired_contended self N timeout (Z.to_nat N) 0 e0 w0
              Hbusy0 ltac:(lia) Hcont)
    as (e' & w' & evs & Hloop & Hbusy' & Hlog & Hw & Ht).
  exists e', w', (evs ++ evs1).
  rewrite Hloop, Hlog, Hlog1, !count_app, Hw, Ht, Hw1, Ht1, <- app_assoc.
  repeat split; [done|lia..].
Qed.

(** C4.  A failure that is not a BusyLock error passes through the errback
    of the retry loop as it is: the retry count keeps its value, no timer is
    set and no statement is issued (the world is unchanged).  So an attempt
    of [acquire] that fails in such a way ends the call with that failure
    there and then. *)
Theorem other_failure_not_retried self max_retry timeout fuel retries e w :
  is_BusyLockError e = false ->
  _lock_not_acquired execute self max_retry timeout fuel retries e w
    = (Err e, retries, w)
  ∧ (∀ w0, _acquire_lock execute self w0 = (Err e, w) ->
       acquire_retries execute self max_retry timeout w0 = (Err e, 0, w)
       ∧ acquire execute self max_retry timeout w0 = (Err e, w)).
Proof.
  intros Hother.
  assert (∀ n r, _lock_not_acquired execute self max_retry timeout n r e w
                 = (Err e, r, w)) as Hloop.
  { intros [|n] r; cbn; by rewrite Hother. }
  split; [done|]. intros w0 Hattempt.
  unfold acquire, acquire_retries. by rewrite Hattempt, Hloop.
Qed.

(** *** Claims on the schema and on [with_lock] *)

Lemma ensure_schema_eq table_name w :
  ensure_schema execute table_name w =
  let ans := execute (CreateTable table_name) ∅ QUORUM (w_client w) in
  (match ans.1 with
   | Ok v => Ok v
   | Err e => if is_InvalidRequestException e then Ok VNone else Err e
   end,
   executed (CreateTable table_name) ∅ ans.2 w).
Proof.
  unfold ensure_schema, executed. unfold_deferred.
  destruct (execute _ _ _ _) as [[v|e] cs]; cbn; [done|].
  by destruct (is_InvalidRequestException e).
Qed.

(** What [with_lock] does, step by step: construct, acquire, and when that
    succeeded run the unit of work, release, and fire with the outcome of
    the unit of work if the release succeeded, with the failure of the
    release if it did not. *)
Lemma with_lock_eq lock_table lock_id func ttl max_retry timeout w :
  with_lock execute lock_table lock_id func ttl max_retry timeout w =
  let self := (BasicLock_init lock_table lock_id ttl w).1 in
  let w0 := (BasicLock_init lock_table lock_id ttl w).2 in
  match acquire execute self max_retry timeout w0 with
  | (Err e, w1) => (Err e, w1)
  | (Ok _, w1) =>
      let work := func (w_client w1) in
      let q := DeleteLock lock_table in
      let del := execute q (claim_params self) QUORUM work.2 in
      (match del.1 with Ok _ => work.1 | Err e => Err e end,
       executed q (claim_params self) del.2
         {| w_client := work.2; w_uuid := w_uuid w1;
            w_log := EvCallFunc :: w_log w1 |})
  end.
Proof.
  unfold with_lock, release_lock, release. cbn.
  set (self := {| _lock_table := lock_table |}).
  unfold addCallback at 1.
  destruct (acquire execute self max_retry timeout _) as [[v|e] w1]; [|done].
  unfold_deferred. unfold executed.
  destruct (func (w_client w1)) as [r cs2]. cbn.
  by destruct (execute _ _ _ cs2) as [[?|?] ?].
Qed.

(** C6 (as amended).  When the lock was acquired and the unit of work
    returned [v], [with_lock] fires with [v] if the release succeeds; if the
    release fails, [with_lock] fires with the failure of the release. *)
Theorem with_lock_result_after_release
    lock_table lock_id func ttl max_retry timeout w v0 w1 v cs2 :
  let self := (BasicLock_init lock_table lock_id ttl w).1 in
  let w0 := (BasicLock_init lock_table lock_id ttl w).2 in
  acquire execute self max_retry timeout w0 = (Ok v0, w1) ->
  func (w_client w1) = (Ok v, cs2) ->
  (with_lock execute lock_table lock_id func ttl max_retry timeout w).1 =
  match (execute (DeleteLock lock_table) (claim_params self) QUORUM cs2).1 with
  | Ok _ => Ok v
  | Err e => Err e
  end.
Proof.
  intros self w0 Hacq Hwork. rewrite with_lock_eq. cbn zeta.
  fold self w0. rewrite Hacq, Hwork. done.
Qed.

(** C7 (as amended).  When the lock was acquired, [with_lock] calls the
    unit of work and then issues the delete of its claim record exactly
    once, whatever the unit of work did, and nothing after it.  When the
    unit of work raised [e], the caller receives [e] after that release,
    provided the release succeeded; it receives the failure of the release
    otherwise. *)
Theorem with_lock_releases_once
    lock_table lock_id func ttl max_retry timeout w v0 w1 r cs2 :
  let self := (BasicLock_init lock_table lock_id ttl w).1 in
  let w0 := (BasicLock_init lock_table lock_id ttl w).2 in
  acquire execute self max_retry timeout w0 = (Ok v0, w1) ->
  func (w_client w1) = (r, cs2) ->
  let out := with_lock execute lock_table lock_id func ttl max_retry timeout w in
  let del := execute (DeleteLock lock_table) (claim_params self) QUORUM cs2 in
  ∃ evs,
    w_log out.2 = evs ++ w_log w1
    ∧ evs = [EvExecute (DeleteLock lock_table) (claim_params self) QUORUM; EvCallFunc]
    ∧ count (is_release_of self) evs = 1%nat
    ∧ w_client out.2 = del.2
    ∧ ∀ e, r = Err e ->
        out.1 = match del.1 with Ok _ => Err e | Err e' => Err e' end.
Proof.
  intros self w0 Hacq Hwork out del. subst out. rewrite with_lock_eq. cbn zeta.
  fold self w0. rewrite Hacq, Hwork. cbn [fst snd]. fold del.
  exists [EvExecute (DeleteLock lock_table) (claim_params self) QUORUM; EvCallFunc].
  repeat split.
  - unfold count. cbn. by rewrite bool_decide_true.
  - by intros e ->.
Qed.

End EngineProperties.

(** On the gateway [ensure_schema] never raises and leaves the table in
    place. *)
Lemma gateway_ensure_schema latency table_name (w : World Gateway.Store) :
  (ensure_schema (Gateway.gateway_execute latency) table_name w).1 = Ok VNone
  ∧ table_name
    ∈ Gateway.st_tables
        (w_client (ensure_schema (Gateway.gateway_execute latency) table_name w).2).
Proof.
  rewrite ensure_schema_eq. cbn.
  destruct (decide (table_name ∈ _)) as [Hin|Hout]; cbn; [done|].
  split; [done|set_solver].
Qed.

(** C5 (as amended).  [ensure_schema] swallows every failure of the type
    [InvalidRequestException] (the type under which the storage layer
    reports that the table exists) and fires with [None]; it propagates a
    failure of any other type, and a result, as they are.  On the storage
    gateway it can so be called any number of times in a row without
    raising. *)
Theorem ensure_schema_swallows_invalid_request :
  (∀ ClientState
     (execute : statement -> params -> ConsistencyLevel -> ClientState
                -> result value * ClientState)
     table_name (w : World ClientState),
     let ans := execute (CreateTable table_name) ∅ QUORUM (w_client w) in
     ensure_schema execute table_name w =
     (match ans.1 with
      | Ok v => Ok v
      | Err (InvalidRequestException _) => Ok VNone
      | Err e => Err e
      end,
      executed (CreateTable table_name) ∅ ans.2 w))
  ∧ (∀ latency table_name (w : World Gateway.Store),
       let once := ensure_schema (Gateway.gateway_execute latency) table_name w in
       let twice := ensure_schema (Gateway.gateway_execute latency) table_name once.2 in
       once.1 = Ok VNone ∧ twice.1 = Ok VNone
       ∧ table_name ∈ Gateway.st_tables (w_client twice.2)).
Proof.
  split.
  - intros CS execute table_name w. rewrite ensure_schema_eq. cbn zeta.
    destruct (execute _ _ _ _).1 as [v|[]]; done.
  - intros latency table_name w. cbn zeta.
    pose proof (gateway_ensure_schema latency table_name w) as [-> _].
    by pose proof (gateway_ensure_schema latency table_name
      (ensure_schema (Gateway.gateway_execute latency) table_name w).2) as [-> ?].
Qed.

(** ** Properties on the storage gateway *)

Section GatewayProperties.
Import Gateway.

Variable latency : Z.

Implicit Types (self : BasicLock) (w : World Store) (s : Store).

(** The ordered read returns the live claims of the lock name, and only
    those. *)
Lemma elem_of_claims_of cf lock_id s claim :
  claim ∈ claims_of cf lock_id s ↔ live s cf lock_id claim.
Proof.
  unfold claims_of, live. rewrite merge_sort_Permutation, list_elem_of_omap. split.
  - intros ([[[t l] c] expires] & Hin & Hsel). cbn in Hsel.
    case_decide as Hkey; [|done]. destruct Hkey as (-> & -> & Hlive).
    injection Hsel as ->. apply elem_of_map_to_list in Hin. eauto.
  - intros (expires & Hrow & Hlive). exists (cf, lock_id, claim, expires).
    split; [by apply elem_of_map_to_list|]. cbn. by rewrite decide_True.
Qed.

Lemma claims_of_sorted cf lock_id s :
  StronglySorted Z.le (claims_of cf lock_id s).
Proof. apply StronglySorted_merge_sort; apply _. Qed.

(** The head of the ordered read is the earliest live claim. *)
Lemma claims_of_head_le cf lock_id s first claim :
  head (claims_of cf lock_id s) = Some first ->
  live s cf lock_id claim ->
  first <= claim.
Proof.
  intros Hhead Hlive. apply elem_of_claims_of in Hlive.
  pose proof (claims_of_sorted cf lock_id s) as Hsorted.
  apply head_Some in Hhead as [rest Heq]. rewrite Heq in Hlive, Hsorted.
  apply StronglySorted_cons in Hsorted as [Hle _].
  apply elem_of_cons in Hlive as [->|Hin]; [lia|].
  by eapply Forall_forall in Hle.
Qed.

Lemma mkrow_claimId lock_id claim : mkrow lock_id claim !! "claimId" = Some (CUuid claim).
Proof. unfold mkrow. by rewrite lookup_insert_ne, lookup_singleton_eq. Qed.

(** The answer of the gateway to the delete of [release]. *)
Lemma gateway_delete self s :
  gateway_execute latency (DeleteLock (_lock_table self)) (claim_params self) QUORUM s =
  (Ok VNone,
   tick latency
     (with_rows (delete (_lock_table self, _lock_id self, _claim_id self) (st_rows s)) s)).
Proof.
  unfold gateway_execute. by rewrite claim_params_lockId, claim_params_claimId.
Qed.

(** The answer of the gateway to the read of [_read_lock]. *)
Lemma gateway_select self s :
  gateway_execute latency (SelectLock (_lock_table self)) (lock_params self) QUORUM s =
  (Ok (VRows (mkrow (_lock_id self) <$> claims_of (_lock_table self) (_lock_id self) s)),
   tick latency s).
Proof. unfold gateway_execute. by rewrite lock_params_lockId. Qed.

(** The verify step on an ordered read succeeds exactly when the engine's
    claim heads it. *)
Lemma verify_rows_wins self (claims : list Z) w :
  (_verify_lock (gateway_execute latency) self
     (VRows (mkrow (_lock_id self) <$> claims)) w).1 = Ok (VBool true)
  ↔ head claims = Some (_claim_id self).
Proof.
  destruct claims as [|first rest]; [done|].
  rewrite fmap_cons, (_verify_lock_eq _ _ _ _ _ _ (mkrow_claimId _ _)).
  cbn zeta. case_decide as Hfound.
  - injection Hfound as ->. done.
  - rewrite gateway_delete. cbn. split; [done|]. intros [= ->]. done.
Qed.

(** An engine observes success exactly when its claim heads the ordered
    read. *)
Lemma read_verify_wins self w :
  (read_verify (gateway_execute latency) self w).1 = Ok (VBool true)
  ↔ head (claims_of (_lock_table self) (_lock_id self) (w_client w))
    = Some (_claim_id self).
Proof.
  unfold read_verify, _read_lock, addCallback.
  rewrite client_execute_eq, gateway_select. cbn [fst snd].
  apply verify_rows_wins.
Qed.

(** The claim at the head of an ordered read is earlier than any other
    live claim. *)
Lemma claims_of_head_lt cf lock_id s first claim :
  head (claims_of cf lock_id s) = Some first ->
  live s cf lock_id claim ->
  first ≠ claim ->
  first < claim.
Proof.
  intros Hhead Hlive Hne. pose proof (claims_of_head_le _ _ _ _ _ Hhead Hlive). lia.
Qed.

(** C9.  On the storage gateway [release] never fails, whatever the store
    holds and whether or not the engine ever acquired the lock: it issues
    its one delete, after which the engine's claim record is not in the
    store; every other record and the schema stay as they are, so a store
    without the record keeps its rows; and a second [release] leaves the
    rows and the schema as the first one left them. *)
Theorem release_idempotent self w :
  let ex := gateway_execute latency in
  let key := (_lock_table self, _lock_id self, _claim_id self) in
  let once := release ex self w in
  let twice := release ex self once.2 in
  once.1 = Ok VNone
  ∧ twice.1 = Ok VNone
  ∧ w_log once.2
    = EvExecute (DeleteLock (_lock_table self)) (claim_params self) QUORUM :: w_log w
  ∧ st_rows (w_client once.2) = delete key (st_rows (w_client w))
  ∧ st_rows (w_client once.2) !! key = None
  ∧ ¬ live (w_client once.2) (_lock_table self) (_lock_id self) (_claim_id self)
  ∧ (st_rows (w_client w) !! key = None ->
     st_rows (w_client once.2) = st_rows (w_client w))
  ∧ st_tables (w_client once.2) = st_tables (w_client w)
  ∧ st_rows (w_client twice.2) = st_rows (w_client once.2)
  ∧ st_tables (w_client twice.2) = st_tables (w_client once.2).
Proof.
  cbn zeta. rewrite !release_eq, !gateway_delete. cbn.
  repeat split.
  - apply lookup_delete_eq.
  - intros (expires & Hrow & _). cbn in Hrow. by rewrite lookup_delete_eq in Hrow.
  - apply delete_id.
  - apply delete_id, lookup_delete_eq.
Qed.

(** *** Interleaved attempts *)

(** Run alone, the three callbacks are the attempt [_acquire_lock]. *)
Lemma solo_attempt self w :
  let s1 := step_engine latency self Writing w in
  let s2 := step_engine latency self s1.1 s1.2 in
  let s3 := step_engine latency self s2.1 s2.2 in
  ∃ seen,
    s3.1 = Done seen (_acquire_lock (gateway_execute latency) self w).1
    ∧ s3.2 = (_acquire_lock (gateway_execute latency) self w).2.
Proof.
  cbn zeta. unfold _acquire_lock, addCallback. cbn [step_engine].
  destruct (_write_lock _ self w) as [[v|e] w1]; cbn [fst snd step_engine];
    [|by exists None].
  destruct (_read_lock _ self v w1) as [[v'|e] w2]; cbn [fst snd step_engine];
    [|by eexists].
  destruct (_verify_lock _ self v' w2) as [r w3]. by eexists.
Qed.

Lemma step_engine_sound self p w :
  pc_sound self p -> pc_sound self (step_engine latency self p w).1.
Proof.
  destruct p as [|written|seen response|seen outcome]; cbn [step_engine].
  - intros _. by destruct (_write_lock _ self w) as [[v|e] w'].
  - intros _. unfold _read_lock. by rewrite client_execute_eq, gateway_select.
  - cbn [pc_sound]. intros ->.
    pose proof (verify_rows_wins self
                  (claims_of (_lock_table self) (_lock_id self) seen) w) as Hwins.
    destruct (_verify_lock _ self _ w) as [[[| [|] | | |]|e] w']; cbn; try done.
    by apply Hwins.
  - done.
Qed.

Lemma step_sound a b t sys :
  pc_sound a (sys_a sys) -> pc_sound b (sys_b sys) ->
  pc_sound a (sys_a (step latency a b t sys))
  ∧ pc_sound b (sys_b (step latency a b t sys)).
Proof.
  intros Ha Hb. destruct t as [| |f]; cbn [step].
  - pose proof (step_engine_sound a (sys_a sys) (sys_world sys) Ha) as Ha'.
    by destruct (step_engine latency a _ _).
  - pose proof (step_engine_sound b (sys_b sys) (sys_world sys) Hb) as Hb'.
    by destruct (step_engine latency b _ _).
  - done.
Qed.

Lemma run_sound a b schedule sys :
  pc_sound a (sys_a sys) -> pc_sound b (sys_b sys) ->
  pc_sound a (sys_a (run latency a b schedule sys))
  ∧ pc_sound b (sys_b (run latency a b schedule sys)).
Proof.
  revert sys. induction schedule as [|t schedule IH]; intros sys Ha Hb; [done|].
  cbn [run]. destruct (step_sound a b t sys Ha Hb). by apply IH.
Qed.

(** C1 (as amended).  Two engines bid for the same lock name with distinct
    claim identifiers, and their attempts run concurrently: the callbacks of
    the two chains interleave in any order, with anything else happening to
    the store in between.  An engine observes success only if its claim
    identifier comes first in the ordered read it took; so the engines do
    not both observe success when the ordered read of each was taken at an
    instant at which both claim records were live, and the one that does is
    the earlier bidder.  (An engine that read before the write of the other
    landed is not covered: it can observe success as well.) *)
Theorem mutual_exclusion (a b : BasicLock) (schedule : list turn) (w : World Store) :
  _lock_table a = _lock_table b ->
  _lock_id a = _lock_id b ->
  _claim_id a ≠ _claim_id b ->
  let final := run latency a b schedule (start w) in
  let both_live self p := won_among self (_claim_id a) (_claim_id b) p in
  ¬ (both_live a (sys_a final) ∧ both_live b (sys_b final))
  ∧ (∀ seen, sys_a final = Done (Some seen) (Ok (VBool true)) ->
       head (claims_of (_lock_table a) (_lock_id a) seen) = Some (_claim_id a))
  ∧ (∀ seen, sys_b final = Done (Some seen) (Ok (VBool true)) ->
       head (claims_of (_lock_table b) (_lock_id b) seen) = Some (_claim_id b))
  ∧ (both_live a (sys_a final) -> _claim_id a < _claim_id b)
  ∧ (both_live b (sys_b final) -> _claim_id b < _claim_id a).
Proof.
  intros Htable Hid Hne final both_live.
  destruct (run_sound a b schedule (start w) I I) as [Ha Hb]. fold final in Ha, Hb.
  assert (∀ seen, sys_a final = Done (Some seen) (Ok (VBool true)) ->
            head (claims_of (_lock_table a) (_lock_id a) seen) = Some (_claim_id a))
    as Hheada by (intros seen Heq; by rewrite Heq in Ha).
  assert (∀ seen, sys_b final = Done (Some seen) (Ok (VBool true)) ->
            head (claims_of (_lock_table b) (_lock_id b) seen) = Some (_claim_id b))
    as Hheadb by (intros seen Heq; by rewrite Heq in Hb).
  assert (both_live a (sys_a final) -> _claim_id a < _claim_id b) as Hlta.
  { intros (seen & Heq & _ & Hliveb).
    by eapply claims_of_head_lt; [apply Hheada| |]. }
  assert (both_live b (sys_b final) -> _claim_id b < _claim_id a) as Hltb.
  { intros (seen & Heq & Hlivea & _). rewrite <- Htable, <- Hid in Hlivea.
    eapply claims_of_head_lt; [by apply Hheadb| |done].
    by rewrite <- Htable, <- Hid. }
  repeat split; try done. intros [Hwa Hwb].
  specialize (Hlta Hwa). specialize (Hltb Hwb). lia.
Qed.

End GatewayProperties.

(** ** The claims on concrete runs *)

Section Runs.
Import Gateway Scenario.

(** Both engines write before either reads: A, the earlier bidder, observes
    success and B backs off. *)
Lemma mutual_exclusion_witness :
  let final := run 0 engineA engineB [TurnA; TurnB; TurnA; TurnB; TurnA; TurnB]
                 (start world0) in
  _claim_id engineA ≠ _claim_id engineB
  ∧ won_among engineA 1 2 (sys_a final)
  ∧ sys_b final = Done (Some both_store) (Err (BusyLockError "locks" "jobs-queue"))
  ∧ ¬ (won_among engineA 1 2 (sys_a final) ∧ won_among engineB 1 2 (sys_b final))
  ∧ (won_among engineA 1 2 (sys_a final) -> 1 < 2).
Proof.
  cbn zeta.
  assert (_claim_id engineA ≠ _claim_id engineB) as Hne by (cbn; lia).
  split; [exact Hne|]. split.
  { exists both_store. split; [by vm_compute|].
    split; exists 5; split; reflexivity. }
  split; [by vm_compute|].
  pose proof (mutual_exclusion 0 engineA engineB
                [TurnA; TurnB; TurnA; TurnB; TurnA; TurnB] world0 eq_refl eq_refl Hne)
    as (Hexcl & _ & _ & Hlt & _).
  split; [exact Hexcl | exact Hlt].
Defined.

(** C1 refuted as stated: B writes and reads before A's write lands, so
    B's read holds B's claim alone; A then writes.  When B verifies, and
    again when A reads and verifies, both claim records are live, and both
    engines observe success: B on the read it took earlier, A because its
    claim identifier is the earlier one. *)
Lemma mutual_exclusion_counterexample :
  let at_b_verify := run 0 engineA engineB [TurnB; TurnB; TurnA] (start world0) in
  let at_a_read := run 0 engineA engineB [TurnB; TurnB; TurnA; TurnB] (start world0) in
  let final := run 0 engineA engineB [TurnB; TurnB; TurnA; TurnB; TurnA; TurnA]
                 (start world0) in
  _lock_table engineA = _lock_table engineB
  ∧ _lock_id engineA = _lock_id engineB
  ∧ _claim_id engineA ≠ _claim_id engineB
  ∧ (live (w_client (sys_world at_b_verify)) "locks" "jobs-queue" 1
     ∧ live (w_client (sys_world at_b_verify)) "locks" "jobs-queue" 2
     ∧ ∃ seen, sys_b at_b_verify = Verifying seen (VRows [rowB]))
  ∧ (live (w_client (sys_world at_a_read)) "locks" "jobs-queue" 1
     ∧ live (w_client (sys_world at_a_read)) "locks" "jobs-queue" 2
     ∧ (∃ seen, sys_b at_a_read = Done (Some seen) (Ok (VBool true)))
     ∧ ∃ written, sys_a at_a_read = Reading written)
  ∧ (live (w_client (sys_world final)) "locks" "jobs-queue" 1
     ∧ live (w_client (sys_world final)) "locks" "jobs-queue" 2
     ∧ (∃ seen, sys_a final = Done (Some seen) (Ok (VBool true))
                ∧ claims_of "locks" "jobs-queue" seen = [1; 2])
     ∧ ∃ seen, sys_b final = Done (Some seen) (Ok (VBool true))
               ∧ claims_of "locks" "jobs-queue" seen = [2]).
Proof.
  cbn zeta. split; [done|]. split; [done|]. split; [cbn; lia|].
  split_and!; try (exists 5; split; reflexivity); eexists; by vm_compute.
Qed.

(** The scenario of the two engines on "jobs-queue": A's write lands first,
    B's read sees both claims, B removes its own and fails with BusyLock. *)
Example jobs_queue_scenario :
  let w1 := (_write_lock ex engineA world0).2 in
  let w2 := (_write_lock ex engineB w1).2 in
  let outA := read_verify ex engineA w2 in
  let outB := read_verify ex engineB outA.2 in
  outA.1 = Ok (VBool true)
  ∧ outB.1 = Err (BusyLockError "locks" "jobs-queue")
  ∧ claims_of "locks" "jobs-queue" (w_client w2) = [1; 2]
  ∧ claims_of "locks" "jobs-queue" (w_client outB.2) = [1].
Proof. vm_compute. done. Qed.

(** A gateway slower than the TTL: the claim has expired when it is read. *)
Lemma acquire_lock_empty_read_witness :
  (slow_ex (SelectLock "locks") (lock_params engineA) QUORUM
     (slow_ex (InsertLock "locks" 5) (claim_params engineA) QUORUM empty_store).2).1
    = Ok (VRows [])
  ∧ (_acquire_lock slow_ex engineA world0).1 = Err (IndexError "list index out of range")
  ∧ (acquire slow_ex engineA 5 10 world0).1 = Err (IndexError "list index out of range").
Proof.
  split; [reflexivity|].
  pose proof (acquire_lock_empty_read slow_ex engineA world0 VNone
                (slow_ex (InsertLock "locks" 5) (claim_params engineA) QUORUM
                   empty_store).2
                (slow_ex (SelectLock "locks") (lock_params engineA) QUORUM
                   (slow_ex (InsertLock "locks" 5) (claim_params engineA) QUORUM
                      empty_store).2).2
                eq_refl eq_refl) as (_ & _ & Hattempt & Hacquire & _).
  split; [by rewrite Hattempt | by rewrite Hacquire].
Defined.

(** Engine B against the lock engine A holds, with the default policy: six
    attempts, five timers, BusyLock. *)
Lemma acquire_exhausts_retries_witness :
  contended ex engineB 10 6 world_held = true
  ∧ ∃ e w' evs,
      acquire_retries ex engineB 5 10 world_held = (Err e, 6, w')
      ∧ acquire ex engineB 5 10 world_held = (Err e, w')
      ∧ is_BusyLockError e = true
      ∧ w_log w' = evs ++ w_log world_held
      ∧ count is_write evs = 6%nat
      ∧ count is_timer evs = 5%nat.
Proof.
  split; [by vm_compute|].
  apply (acquire_exhausts_retries ex engineB 5 10 world_held); [lia | by vm_compute].
Defined.

(** A cluster that is down: the first attempt fails and nothing is retried. *)
Lemma other_failure_not_retried_witness :
  is_BusyLockError UnavailableException = false
  ∧ acquire down_ex engineA 5 10 world0
    = (Err UnavailableException, (_acquire_lock down_ex engineA world0).2).
Proof.
  split; [reflexivity|].
  apply (proj2 (other_failure_not_retried down_ex engineA 5 10 5%nat 0
                  UnavailableException (_acquire_lock down_ex engineA world0).2 eq_refl)
           world0).
  reflexivity.
Defined.

(** Engine B finds engine A's claim first and backs off. *)
Lemma verify_lock_first_row_witness :
  rowA !! "claimId" = Some (CUuid 1)
  ∧ (_verify_lock ex engineB (VRows [rowA; rowB]) world_both).1
    = Err (BusyLockError "locks" "jobs-queue")
  ∧ (_verify_lock ex engineA (VRows [rowA; rowB]) world_both).1 = Ok (VBool true).
Proof.
  split; [reflexivity|]. split.
  - rewrite (verify_lock_first_row ex engineB rowA [rowB] (CUuid 1) world_both eq_refl).
    reflexivity.
  - rewrite (verify_lock_first_row ex engineA rowA [rowB] (CUuid 1) world_both eq_refl).
    reflexivity.
Defined.

(** C8 refuted as stated: the first row is engine A's, but the delete of
    engine B fails, so B's record stays and the attempt fails with the
    failure of the delete, not with BusyLock. *)
Lemma verify_lock_busy_counterexample :
  let out := _verify_lock flaky_ex engineB (VRows [rowA; rowB]) world_both in
  rowA !! "claimId" = Some (CUuid 1)
  ∧ CUuid 1 ≠ CUuid (_claim_id engineB)
  ∧ out.1 = Err TimedOutException
  ∧ out.1 ≠ Err (BusyLockError "locks" "jobs-queue")
  ∧ st_rows (w_client out.2) !! ("locks", "jobs-queue", 2) = Some 5.
Proof. vm_compute. repeat split; congruence. Qed.

(** C5 refuted as stated: a malformed statement, which is not the
    schema-exists condition, is swallowed as well. *)
Lemma ensure_schema_counterexample :
  let out := ensure_schema strict_ex "my-locks" world0 in
  (strict_ex (CreateTable "my-locks") ∅ QUORUM empty_store).1
    = Err (InvalidRequestException "line 1:15 mismatched input '-'")
  ∧ InvalidRequestException "line 1:15 mismatched input '-'" ≠ exists_already
  ∧ out.1 = Ok VNone
  ∧ "my-locks" ∉ st_tables (w_client out.2).
Proof.
  cbn zeta. split; [reflexivity|]. split; [vm_compute; congruence|].
  split; [reflexivity|]. rewrite ensure_schema_eq. cbn. set_solver.
Qed.

(** The unit of work returns 42 and the release succeeds. *)
Lemma with_lock_result_after_release_witness :
  (with_lock ex "locks" "jobs-queue" work_ok 5 5 10 world0).1 = Ok (VInt 42).
Proof.
  eapply eq_trans.
  - eapply (with_lock_result_after_release ex "locks" "jobs-queue" work_ok 5 5 10 world0);
      vm_compute; reflexivity.
  - reflexivity.
Defined.

(** C6 refuted as stated: the lock is acquired, the unit of work returns
    42, the release fails and [with_lock] fires with the failure of the
    release. *)
Lemma with_lock_release_failure_counterexample :
  let self := (BasicLock_init "locks" "jobs-queue" 5 world0).1 in
  let acquired := acquire flaky_ex self 5 10 (BasicLock_init "locks" "jobs-queue" 5 world0).2 in
  let out := with_lock flaky_ex "locks" "jobs-queue" work_ok 5 5 10 world0 in
  acquired.1 = Ok (VBool true)
  ∧ (work_ok (w_client acquired.2)).1 = Ok (VInt 42)
  ∧ out.1 = Err TimedOutException
  ∧ out.1 ≠ Ok (VInt 42).
Proof. vm_compute. repeat split; congruence. Qed.

(** The unit of work raises and the release succeeds. *)
Lemma with_lock_releases_once_witness :
  let out := with_lock ex "locks" "jobs-queue" work_raises 5 5 10 world0 in
  out.1 = Err (OtherException "ValueError" "bad job")
  ∧ count (is_release_of (BasicLock_init "locks" "jobs-queue" 5 world0).1)
      (take 2 (w_log out.2)) = 1%nat
  ∧ st_rows (w_client out.2) = ∅.
Proof.
  cbn zeta.
  edestruct (with_lock_releases_once ex "locks" "jobs-queue" work_raises 5 5 10 world0)
    as (evs & Hlog & Hevs & Hcount & Hclient & Hout);
    [vm_compute; reflexivity | vm_compute; reflexivity |].
  rewrite Hlog, Hevs, Hclient, (Hout _ eq_refl). repeat split.
Defined.

(** C7 refuted as stated: the unit of work raises, the release fails, and
    the caller receives the failure of the release, not the one the unit of
    work raised. *)
Lemma with_lock_raise_counterexample :
  let self := (BasicLock_init "locks" "jobs-queue" 5 world0).1 in
  let acquired := acquire flaky_ex self 5 10 (BasicLock_init "locks" "jobs-queue" 5 world0).2 in
  let out := with_lock flaky_ex "locks" "jobs-queue" work_raises 5 5 10 world0 in
  acquired.1 = Ok (VBool true)
  ∧ (work_raises (w_client acquired.2)).1 = Err (OtherException "ValueError" "bad job")
  ∧ out.1 = Err TimedOutException
  ∧ out.1 ≠ Err (OtherException "ValueError" "bad job").
Proof. vm_compute. repeat split; congruence. Qed.

(** Releasing a lock that was never acquired. *)
Lemma release_idempotent_witness :
  let once := release ex engineB world_held in
  st_rows held_store !! ("locks", "jobs-queue", 2) = None
  ∧ once.1 = Ok VNone
  ∧ st_rows (w_client once.2) = st_rows held_store
  ∧ st_rows (w_client (release ex engineB once.2).2) = st_rows held_store.
Proof.
  cbn zeta.
  assert (st_rows held_store !! ("locks", "jobs-queue", 2) = None) as Habsent
    by reflexivity.
  pose proof (release_idempotent 0 engineB world_held)
    as (Hok & _ & _ & _ & _ & _ & Hkeep & _ & Htwice & _).
  split; [exact Habsent|]. split; [exact Hok|].
  split; [exact (Hkeep Habsent)|].
  exact (eq_trans Htwice (Hkeep Habsent)).
Defined.

End Runs.

(** * Further properties of the engine *)

Section MoreEngineProperties.

Context {ClientState : Type}.
Variable execute :
  statement -> params -> ConsistencyLevel -> ClientState -> result value * ClientState.

Implicit Types (self : BasicLock) (w : World ClientState) (e : exn).

Lemma count_cons f (ev : event) (evs : list event) :
  count f (ev :: evs) = ((if f ev then 1 else 0) + count f evs)%nat.
Proof.
  unfold count. rewrite filter_cons.
  destruct (f ev); case_decide; try done.
Qed.

Lemma count_nil f : count f [] = 0%nat.
Proof. done. Qed.

(** What a trace of one attempt holds. *)
Lemma attempt_shape_counts self timeout (evs : list event) :
  attempt_shape self evs ->
  count is_write evs = 1%nat
  ∧ count is_timer evs = 0%nat
  ∧ count is_func evs = 0%nat
  ∧ Forall (own_event self timeout) evs.
Proof.
  intros [->|[->|[->|(found & _ & ->)]]];
    rewrite ?count_cons, ?count_nil; cbn;
    (repeat split; [done..|]);
    repeat (apply Forall_cons; split; [cbn; auto|]); by apply Forall_nil.
Qed.

(** The trace of one attempt, and what it says of a success. *)
Lemma acquire_lock_shape self w :
  ∃ evs,
    w_log (_acquire_lock execute self w).2 = evs ++ w_log w
    ∧ attempt_shape self evs
    ∧ w_uuid (_acquire_lock execute self w).2 = w_uuid w
    ∧ ∀ v, (_acquire_lock execute self w).1 = Ok v ->
        v = VBool true
        ∧ evs = [EvCompare (CUuid (_claim_id self)) (_claim_id self);
                 read_of self; write_of self].
Proof.
  unfold attempt_shape, write_of, read_of, delete_of.
  unfold _acquire_lock, _write_lock, _read_lock, _verify_lock, release.
  unfold_deferred.
  destruct (execute (InsertLock _ _) _ _ _) as [[v1|e1] cs1]; cbn;
    [|eexists [_]; split; [done|]; split; [by left|done]].
  destruct (execute (SelectLock _) _ _ _) as [[v2|e2] cs2]; cbn;
    [|eexists [_; _]; split; [done|]; split; [by right; left|done]].
  destruct (getitem0 v2) as [first|e3]; cbn;
    [|eexists [_; _]; split; [done|]; split; [by right; left|done]].
  destruct (first !! "claimId") as [found|]; cbn;
    [|eexists [_; _]; split; [done|]; split; [by right; left|done]].
  destruct (decide (found = _)) as [->|Hne]; cbn.
  { eexists [_; _; _]. split; [done|]. split; [by right; right; left|].
    split; [done|]. by intros v [= <-]. }
  destruct (execute (DeleteLock _) _ _ _) as [[v4|e4] cs4]; cbn;
    (eexists [_; _; _; _]; split; [done|]; split; [|done];
     right; right; right; by exists found).
Qed.

(** The trace of the retry loop: as many attempts as timers, one timer per
    retry counted, every event the engine's own, and a success only out of a
    comparison that found the engine's own claim. *)
Lemma _lock_not_acquired_events self max_retry timeout fuel retries e w :
  ∃ evs,
    w_log (_lock_not_acquired execute self max_retry timeout fuel retries e w).2
      = evs ++ w_log w
    ∧ count is_write evs = count is_timer evs
    ∧ (count is_timer evs <= fuel)%nat
    ∧ count is_func evs = 0%nat
    ∧ Forall (own_event self timeout) evs
    ∧ w_uuid (_lock_not_acquired execute self max_retry timeout fuel retries e w).2
      = w_uuid w
    ∧ retries + Z.of_nat (count is_timer evs)
      <= (_lock_not_acquired execute self max_retry timeout fuel retries e w).1.2
      <= retries + Z.of_nat (count is_timer evs) + 1
    ∧ ∀ v,
        (_lock_not_acquired execute self max_retry timeout fuel retries e w).1.1 = Ok v ->
        v = VBool true
        ∧ ∃ rest, evs = [EvCompare (CUuid (_claim_id self)) (_claim_id self);
                         read_of self; write_of self] ++ rest.
Proof.
  revert retries e w.
  induction fuel as [|fuel IH]; intros retries e w; cbn [_lock_not_acquired].
  - exists []. destruct (is_BusyLockError e), (retries + 1 <=? max_retry);
      cbn; repeat split; try done; lia.
  - destruct (is_BusyLockError e);
      [|exists []; cbn; repeat split; try done; lia].
    destruct (retries + 1 <=? max_retry);
      [|exists []; cbn; repeat split; try done; lia].
    unfold deferLater.
    destruct (acquire_lock_shape self (emit (EvCallLater timeout) w))
      as (evs1 & Hlog1 & Hshape & Huuid1 & Hok1).
    destruct (attempt_shape_counts self timeout evs1 Hshape)
      as (Hw1 & Ht1 & Hf1 & Hown1).
    destruct (_acquire_lock execute self (emit (EvCallLater timeout) w))
      as [[v|e'] w'] eqn:Hattempt; cbn [fst snd] in *.
    + exists (evs1 ++ [EvCallLater timeout]).
      rewrite Hlog1, <- app_assoc, !count_app, Hw1, Ht1, Hf1, !count_cons, !count_nil.
      cbn. split_and!; try done; try lia.
      * apply Forall_app. split; [done|]. by repeat constructor.
      * intros ? [= <-]. destruct (Hok1 v eq_refl) as [-> ->]. eauto.
    + destruct (IH (retries + 1) e' w')
        as (evs & Hlog & Hcount & Hfuel & Hf & Hown & Huuid & Hret & Hok).
      exists (evs ++ evs1 ++ [EvCallLater timeout]).
      rewrite Hlog, Hlog1, Huuid, Huuid1, <- !app_assoc, !count_app, Hw1, Ht1, Hf1, Hf,
        !count_cons, !count_nil.
      cbn. split_and!; try done; try lia.
      * rewrite !Forall_app. repeat split; [done..|]. by repeat constructor.
      * intros v Hv. destruct (Hok v Hv) as [-> [rest ->]]. eauto.
Qed.

(** The trace of [acquire]. *)
Lemma acquire_events self max_retry timeout w :
  ∃ evs,
    w_log (acquire execute self max_retry timeout w).2 = evs ++ w_log w
    ∧ count is_write evs = S (count is_timer evs)
    ∧ (count is_timer evs <= Z.to_nat max_retry)%nat
    ∧ count is_func evs = 0%nat
    ∧ Forall (own_event self timeout) evs
    ∧ w_uuid (acquire execute self max_retry timeout w).2 = w_uuid w
    ∧ Z.of_nat (count is_timer evs)
      <= (acquire_retries execute self max_retry timeout w).1.2
      <= Z.of_nat (count is_timer evs) + 1
    ∧ ∀ v, (acquire execute self max_retry timeout w).1 = Ok v ->
        v = VBool true
        ∧ ∃ rest, evs = [EvCompare (CUuid (_claim_id self)) (_claim_id self);
                         read_of self; write_of self] ++ rest.
Proof.
  unfold acquire, acquire_retries.
  destruct (acquire_lock_shape self w) as (evs1 & Hlog1 & Hshape & Huuid1 & Hok1).
  destruct (attempt_shape_counts self timeout evs1 Hshape) as (Hw1 & Ht1 & Hf1 & Hown1).
  destruct (_acquire_lock execute self w) as [[v|e] w'] eqn:Hattempt; cbn [fst snd] in *.
  - exists evs1. rewrite Hw1, Ht1. split_and!; try done; try lia.
    + intros ? [= <-]. destruct (Hok1 v eq_refl) as [-> ->]. split; [done|by exists []].
  - destruct (_lock_not_acquired_events self max_retry timeout (Z.to_nat max_retry) 0 e w')
      as (evs & Hlog & Hcount & Hfuel & Hf & Hown & Huuid & Hret & Hok).
    destruct (_lock_not_acquired _ _ _ _ _ _ _ _) as [[r n] w'']; cbn [fst snd] in *.
    exists (evs ++ evs1).
    rewrite Hlog, Hlog1, Huuid, Huuid1, <- app_assoc, !count_app, Hw1, Ht1, Hf1, Hf, Hcount.
    split_and!; try done; try lia.
    + by apply Forall_app.
    + intros v Hv. destruct (Hok v Hv) as [-> [rest ->]]. rewrite <- app_assoc. eauto.
Qed.

(** X1.  Whatever the client answers, [acquire] makes one attempt more
    than it sets timers, never more than [max_retry + 1] attempts (one
    attempt when [max_retry] is negative), and its retry count ends at the
    number of timers or one above. *)
Theorem acquire_attempts_bounded self max_retry timeout w :
  ∃ evs,
    w_log (acquire execute self max_retry timeout w).2 = evs ++ w_log w
    ∧ count is_write evs = S (count is_timer evs)
    ∧ (count is_write evs <= Z.to_nat max_retry + 1)%nat
    ∧ Z.of_nat (count is_timer evs)
      <= (acquire_retries execute self max_retry timeout w).1.2
      <= Z.of_nat (count is_timer evs) + 1.
Proof.
  destruct (acquire_events self max_retry timeout w)
    as (evs & Hlog & Hcount & Hbound & _ & _ & _ & Hret & _).
  exists evs. split_and!; [done|done|lia|lia|lia].
Qed.

(** X2.  [acquire] fires with a result only out of a verify step that found
    the engine's own claim identifier in the first row of the read of its
    last attempt; that result is [True], whatever the client answered. *)
Theorem acquire_success_verified self max_retry timeout w v :
  (acquire execute self max_retry timeout w).1 = Ok v ->
  v = VBool true
  ∧ ∃ older,
      w_log (acquire execute self max_retry timeout w).2
      = [EvCompare (CUuid (_claim_id self)) (_claim_id self);
         read_of self; write_of self] ++ older.
Proof.
  intros Hok.
  destruct (acquire_events self max_retry timeout w)
    as (evs & Hlog & _ & _ & _ & _ & _ & _ & Hverified).
  destruct (Hverified v Hok) as [-> [rest ->]]. split; [done|].
  rewrite Hlog, <- app_assoc. eauto.
Qed.

(** X3.  Every statement [acquire] issues is one of the engine's own three
    (the insert with its TTL, the select, the delete), on its own table and
    lock name, under its own claim identifier and at quorum; every timer it
    sets has the delay [timeout]; it never calls a unit of work and never
    draws a uuid. *)
Theorem acquire_events_own self max_retry timeout w :
  ∃ evs,
    w_log (acquire execute self max_retry timeout w).2 = evs ++ w_log w
    ∧ Forall (own_event self timeout) evs
    ∧ count is_func evs = 0%nat
    ∧ w_uuid (acquire execute self max_retry timeout w).2 = w_uuid w.
Proof.
  destruct (acquire_events self max_retry timeout w)
    as (evs & Hlog & _ & _ & Hfunc & Hown & Huuid & _).
  by exists evs.
Qed.

(** X4.  With [max_retry] zero or negative, [acquire] is a single attempt:
    it fires with the outcome of that attempt, BusyLock included, and sets
    no timer. *)
Theorem acquire_without_retries self max_retry timeout w :
  max_retry <= 0 ->
  acquire execute self max_retry timeout w = _acquire_lock execute self w.
Proof.
  intros Hmax. unfold acquire, acquire_retries.
  destruct (_acquire_lock execute self w) as [[v|e] w']; [done|].
  replace (Z.to_nat max_retry) with 0%nat by lia. cbn.
  destruct (is_BusyLockError e); [|done].
  by destruct (Z.leb_spec (0 + 1) max_retry); [lia|].
Qed.

(** The retry loop stops at the first attempt that does not end in
    BusyLock. *)
Lemma _lock_not_acquired_settles self max_retry timeout (j : nat) fuel retries e w :
  is_BusyLockError e = true ->
  (j < fuel)%nat ->
  retries + Z.of_nat j + 1 <= max_retry ->
  contended execute self timeout j (emit (EvCallLater timeout) w) = true ->
  is_busy_outcome
    (_acquire_lock execute self
       (retry_world execute self timeout j (emit (EvCallLater timeout) w))).1 = false ->
  _lock_not_acquired execute self max_retry timeout fuel retries e w =
  ((_acquire_lock execute self
      (retry_world execute self timeout j (emit (EvCallLater timeout) w))).1,
   retries + Z.of_nat j + 1,
   (_acquire_lock execute self
      (retry_world execute self timeout j (emit (EvCallLater timeout) w))).2).
Proof.
  revert fuel retries e w.
  induction j as [|j IH]; intros fuel retries e w Hbusy Hfuel Hmax Hcont Hsettled;
    (destruct fuel as [|fuel]; [lia|]);
    cbn [_lock_not_acquired]; rewrite Hbusy;
    (destruct (Z.leb_spec (retries + 1) max_retry); [|lia]); unfold deferLater.
  - cbn [retry_world] in *.
    destruct (_acquire_lock execute self (emit (EvCallLater timeout) w))
      as [[v|e'] w']; cbn [fst snd is_busy_outcome] in *.
    + do 2 f_equal. lia.
    + replace (retries + Z.of_nat 0 + 1) with (retries + 1) by lia.
      destruct fuel; cbn; by rewrite Hsettled.
  - cbn [retry_world contended] in *.
    destruct (_acquire_lock execute self (emit (EvCallLater timeout) w))
      as [[v|e'] w']; [done|]. cbn [snd] in *.
    apply andb_true_iff in Hcont as [Hbusy' Hcont].
    rewrite (IH fuel (retries + 1) e' w' Hbusy' ltac:(lia) ltac:(lia) Hcont Hsettled).
    do 2 f_equal. lia.
Qed.

(** X5.  When the first [k] attempts end in BusyLock, [k] being within the
    retry budget, and attempt [k] ends otherwise (in success or in another
    failure), [acquire] fires with the outcome of attempt [k], leaves the
    world as that attempt left it and has counted [k] retries. *)
Theorem acquire_stops_at_first_settled_attempt self max_retry timeout (k : nat) w :
  (k <= Z.to_nat max_retry)%nat ->
  contended execute self timeout k w = true ->
  is_busy_outcome
    (_acquire_lock execute self (retry_world execute self timeout k w)).1 = false ->
  acquire_retries execute self max_retry timeout w =
  ((_acquire_lock execute self (retry_world execute self timeout k w)).1,
   Z.of_nat k,
   (_acquire_lock execute self (retry_world execute self timeout k w)).2).
Proof.
  intros Hk Hcont Hsettled. unfold acquire_retries.
  destruct k as [|j]; cbn [retry_world contended] in *.
  - destruct (_acquire_lock execute self w) as [[v|e] w']; [done|].
    cbn [fst snd is_busy_outcome] in *.
    destruct (Z.to_nat max_retry); cbn; by rewrite Hsettled.
  - destruct (_acquire_lock execute self w) as [[v|e] w']; [done|]. cbn [snd] in *.
    apply andb_true_iff in Hcont as [Hbusy Hcont].
    rewrite (_lock_not_acquired_settles self max_retry timeout j (Z.to_nat max_retry)
               0 e w' Hbusy ltac:(lia) ltac:(lia) Hcont Hsettled).
    do 2 f_equal. lia.
Qed.

(** X6.  When the write and the read succeed but the response has no
    first row with a claim identifier to compare (no row, a first row
    without the column, or a response that is no row list), the attempt
    fails with the error of that subscript; it issues no delete, so the
    record it wrote stays, and [acquire] hands the error to the caller
    without a retry, since it is not a BusyLock error. *)
Theorem unreadable_response_not_retried self max_retry timeout w v cs1 response cs2 e :
  execute (InsertLock (_lock_table self) (_ttl self)) (claim_params self) QUORUM
    (w_client w) = (Ok v, cs1) ->
  execute (SelectLock (_lock_table self)) (lock_params self) QUORUM cs1
    = (Ok response, cs2) ->
  first_claim response = Err e ->
  is_BusyLockError e = false
  ∧ acquire_retries execute self max_retry timeout w =
    (Err e, 0,
     {| w_client := cs2; w_uuid := w_uuid w;
        w_log := read_of self :: write_of self :: w_log w |}).
Proof.
  intros Hwrite Hread Hfirst.
  assert (is_BusyLockError e = false) as Hother.
  { unfold first_claim in Hfirst.
    destruct response as [| | |[|? ?]|[|first rest]]; cbn in Hfirst;
      try (by injection Hfirst as <-).
    destruct (first !! "claimId"); [done|]. by injection Hfirst as <-. }
  split; [done|].
  assert (_acquire_lock execute self w =
          (Err e, {| w_client := cs2; w_uuid := w_uuid w;
                     w_log := read_of self :: write_of self :: w_log w |}))
    as Hattempt.
  { unfold _acquire_lock, _write_lock, _read_lock, _verify_lock. unfold_deferred.
    rewrite Hwrite. cbn. rewrite Hread. cbn.
    unfold first_claim in Hfirst.
    destruct (getitem0 response) as [first|e0]; [|by injection Hfirst as ->].
    destruct (first !! "claimId"); [done|]. by injection Hfirst as <-. }
  unfold acquire_retries. rewrite Hattempt.
  destruct (Z.to_nat max_retry); cbn; by rewrite Hother.
Qed.

(** The trace of [with_lock]. *)
Lemma with_lock_events lock_table lock_id func ttl max_retry timeout w :
  let self := (BasicLock_init lock_table lock_id ttl w).1 in
  let w0 := (BasicLock_init lock_table lock_id ttl w).2 in
  let acq := acquire execute self max_retry timeout w0 in
  let out := with_lock execute lock_table lock_id func ttl max_retry timeout w in
  ∃ evs,
    w_log out.2 = evs ++ w_log w
    ∧ count is_func evs = (if acq.1 is Ok _ then 1 else 0)%nat
    ∧ Forall (λ ev, own_event self timeout ev ∨ ev = EvCallFunc) evs
    ∧ w_uuid out.2 = w_uuid w + 1.
Proof.
  intros self w0 acq out. subst out. rewrite with_lock_eq. cbn zeta.
  fold self w0 acq.
  destruct (acquire_events self max_retry timeout w0)
    as (evs & Hlog & _ & _ & Hfunc & Hown & Huuid & _).
  fold acq in Hlog, Huuid.
  assert (Forall (λ ev, own_event self timeout ev ∨ ev = EvCallFunc) evs) as Hown'
    by (eapply Forall_impl; [exact Hown | by left]).
  destruct acq as [[v|e] w1]; cbn [fst snd] in *.
  - exists (EvExecute (DeleteLock lock_table) (claim_params self) QUORUM
            :: EvCallFunc :: evs).
    unfold executed. cbn [w_log w_uuid]. rewrite Hlog, Huuid, !count_cons, Hfunc.
    split_and!; try done.
    apply Forall_cons. split; [left; cbn; auto|].
    apply Forall_cons. split; [by right|done].
  - by exists evs.
Qed.

(** X7.  [with_lock] calls the unit of work exactly once when [acquire]
    succeeded and not at all when it failed; in that case it fires with the
    failure of [acquire] and does nothing more, no release included. *)
Theorem with_lock_work_needs_lock lock_table lock_id func ttl max_retry timeout w :
  let self := (BasicLock_init lock_table lock_id ttl w).1 in
  let w0 := (BasicLock_init lock_table lock_id ttl w).2 in
  let acq := acquire execute self max_retry timeout w0 in
  let out := with_lock execute lock_table lock_id func ttl max_retry timeout w in
  (∃ evs,
     w_log out.2 = evs ++ w_log w
     ∧ count is_func evs = (if acq.1 is Ok _ then 1 else 0)%nat)
  ∧ ∀ e, acq.1 = Err e -> out = (Err e, acq.2).
Proof.
  intros self w0 acq out. split.
  - destruct (with_lock_events lock_table lock_id func ttl max_retry timeout w)
      as (evs & Hlog & Hfunc & _). by exists evs.
  - intros e Hfail. subst out. rewrite with_lock_eq. cbn zeta. fold self w0 acq.
    destruct acq as [[v|e'] w1]; cbn in Hfail; [done|]. by injection Hfail as ->.
Qed.

(** X8.  A call of [with_lock] draws one claim identifier, the generator's
    next, and all it does besides calling the unit of work is done in that
    name: its statements are the insert (with the TTL it was given), the
    select and the delete of that one bidder on the given table and lock
    name, at quorum, and its timers have the delay [timeout]. *)
Theorem with_lock_events_own lock_table lock_id func ttl max_retry timeout w :
  let self := {| _lock_table := lock_table; _lock_id := lock_id;
                 _claim_id := w_uuid w; _ttl := ttl |} in
  let out := with_lock execute lock_table lock_id func ttl max_retry timeout w in
  ∃ evs,
    w_log out.2 = evs ++ w_log w
    ∧ Forall (λ ev, own_event self timeout ev ∨ ev = EvCallFunc) evs
    ∧ w_uuid out.2 = w_uuid w + 1.
Proof.
  destruct (with_lock_events lock_table lock_id func ttl max_retry timeout w)
    as (evs & Hlog & _ & Hown & Huuid). by exists evs.
Qed.

End MoreEngineProperties.

(** * Further properties on the storage gateway *)

Section MoreGatewayProperties.
Import Gateway.

Variable latency : Z.

Implicit Types (self : BasicLock) (w : World Store) (s : Store).

(** The answer of the gateway to the insert of [_write_lock]. *)
Lemma gateway_insert self s :
  gateway_execute latency (InsertLock (_lock_table self) (_ttl self))
    (claim_params self) QUORUM s =
  (Ok VNone,
   tick latency
     (with_rows (<[ (_lock_table self, _lock_id self, _claim_id self)
                    := st_now s + _ttl self ]> (st_rows s)) s)).
Proof.
  unfold gateway_execute. by rewrite claim_params_lockId, claim_params_claimId.
Qed.

(** On the gateway the write never fails, so an attempt is the read and
    verify steps on the store the write left. *)
Lemma gateway_attempt_eq self w :
  _acquire_lock (gateway_execute latency) self w =
  read_verify (gateway_execute latency) self
    (executed (InsertLock (_lock_table self) (_ttl self)) (claim_params self)
       (tick latency
          (with_rows (<[ (_lock_table self, _lock_id self, _claim_id self)
                         := st_now (w_client w) + _ttl self ]> (st_rows (w_client w)))
             (w_client w))) w).
Proof.
  unfold _acquire_lock, read_verify, _write_lock, _read_lock, addCallback.
  by rewrite client_execute_eq, gateway_insert.
Qed.

(** In a sorted list the head is the member below all members. *)
Lemma head_sorted_iff (l : list Z) (x : Z) :
  StronglySorted Z.le l ->
  head l = Some x ↔ x ∈ l ∧ ∀ y, y ∈ l -> x <= y.
Proof.
  intros Hsorted. destruct l as [|h t]; cbn.
  - split; [done|]. intros [Hin _]. by apply elem_of_nil in Hin.
  - apply StronglySorted_cons in Hsorted as [Hle _].
    rewrite Forall_forall in Hle. split.
    + intros [= ->]. split; [by left|].
      intros y [->|Hy]%elem_of_cons; [lia|by apply Hle].
    + intros [Hin Hmin]. f_equal.
      pose proof (Hmin h ltac:(by left)).
      apply elem_of_cons in Hin as [->|Hx]; [done|].
      pose proof (Hle x Hx). lia.
Qed.

(** When an attempt succeeds on the gateway. *)
Lemma gateway_attempt_wins self w :
  (_acquire_lock (gateway_execute latency) self w).1 = Ok (VBool true)
  ↔ latency < _ttl self
    ∧ ∀ claim expires,
        st_rows (w_client w) !! (_lock_table self, _lock_id self, claim) = Some expires ->
        st_now (w_client w) + latency < expires ->
        _claim_id self <= claim.
Proof.
  rewrite gateway_attempt_eq, read_verify_wins.
  rewrite (head_sorted_iff _ _ (claims_of_sorted _ _ _)), elem_of_claims_of.
  unfold executed, live, tick, with_rows. cbn [w_client st_rows st_now].
  split.
  - intros [(expires & Hown & Hlive) Hmin]. rewrite lookup_insert_eq in Hown.
    injection Hown as <-. split; [lia|]. intros claim expires Hrow Hexp.
    destruct (decide (claim = _claim_id self)) as [->|Hne]; [lia|].
    apply Hmin, elem_of_claims_of. exists expires. cbn.
    rewrite lookup_insert_ne by congruence. done.
  - intros [Httl Hmin]. split.
    + eexists. rewrite lookup_insert_eq. split; [done|lia].
    + intros claim (expires & Hrow & Hexp)%elem_of_claims_of. cbn in Hrow, Hexp.
      destruct (decide (claim = _claim_id self)) as [->|Hne]; [lia|].
      rewrite lookup_insert_ne in Hrow by congruence. by eapply Hmin.
Qed.

(** X9.  On the storage gateway an attempt succeeds exactly when the
    engine's record outlives the write (the TTL exceeds the latency of a
    statement) and no claim record of the lock name that is still live when
    the read is taken has an earlier claim identifier. *)
Theorem attempt_succeeds_iff self w :
  (_acquire_lock (gateway_execute latency) self w).1 = Ok (VBool true)
  ↔ latency < _ttl self
    ∧ ∀ claim expires,
        st_rows (w_client w) !! (_lock_table self, _lock_id self, claim) = Some expires ->
        st_now (w_client w) + latency < expires ->
        _claim_id self <= claim.
Proof. apply gateway_attempt_wins. Qed.

(** What one attempt does to the store: a BusyLock outcome leaves the rows
    without the engine's record, any other outcome leaves them with it. *)
Lemma gateway_attempt_store self w :
  let key := (_lock_table self, _lock_id self, _claim_id self) in
  let out := _acquire_lock (gateway_execute latency) self w in
  st_tables (w_client out.2) = st_tables (w_client w)
  ∧ st_rows (w_client out.2) =
    if is_busy_outcome out.1 then delete key (st_rows (w_client w))
    else <[ key := st_now (w_client w) + _ttl self ]> (st_rows (w_client w)).
Proof.
  cbn zeta. rewrite gateway_attempt_eq.
  unfold read_verify, _read_lock, addCallback.
  rewrite client_execute_eq, gateway_select. cbn [fst snd executed w_client].
  destruct (claims_of _ _ _) as [|first rest]; [done|].
  rewrite fmap_cons, (_verify_lock_eq _ _ _ _ _ _ (mkrow_claimId _ _)).
  cbn zeta. case_decide as Hfound; [done|].
  rewrite gateway_delete. cbn. by rewrite delete_insert_eq.
Qed.

Lemma gateway_attempt_store_after self w :
  store_after self (w_client w) (_acquire_lock (gateway_execute latency) self w).1
    (w_client (_acquire_lock (gateway_execute latency) self w).2).
Proof.
  destruct (gateway_attempt_store self w) as [Htables Hrows].
  unfold store_after. rewrite Htables, Hrows. split; [done|].
  destruct (is_busy_outcome _).
  - split; [|apply lookup_delete_eq]. intros k Hk. by rewrite lookup_delete_ne.
  - split; [|by rewrite lookup_insert_eq]. intros k Hk. by rewrite lookup_insert_ne.
Qed.

Lemma store_after_trans self s0 s1 s2 r1 r2 :
  store_after self s0 r1 s1 -> store_after self s1 r2 s2 -> store_after self s0 r2 s2.
Proof.
  intros (Ht1 & Hk1 & _) (Ht2 & Hk2 & Hown). unfold store_after.
  rewrite Ht2, Ht1. split; [done|]. split; [|done].
  intros k Hk. by rewrite Hk2, Hk1.
Qed.

Lemma gateway_loop_store_after self max_retry timeout fuel retries e w s0 :
  store_after self s0 (Err e) (w_client w) ->
  store_after self s0
    (_lock_not_acquired (gateway_execute latency) self max_retry timeout
       fuel retries e w).1.1
    (w_client (_lock_not_acquired (gateway_execute latency) self max_retry timeout
                 fuel retries e w).2).
Proof.
  revert retries e w.
  induction fuel as [|fuel IH]; intros retries e w Hbefore; cbn [_lock_not_acquired].
  - by destruct (is_BusyLockError e), (retries + 1 <=? max_retry).
  - destruct (is_BusyLockError e); [|done].
    destruct (retries + 1 <=? max_retry); [|done].
    unfold deferLater.
    pose proof (gateway_attempt_store_after self (emit (EvCallLater timeout) w))
      as Hattempt. cbn [emit w_client] in Hattempt.
    pose proof (store_after_trans _ _ _ _ _ _ Hbefore Hattempt) as Hafter.
    destruct (_acquire_lock _ self (emit (EvCallLater timeout) w)) as [[v|e'] w'];
      cbn [fst snd] in *; [done|].
    by apply IH.
Qed.

Lemma gateway_acquire_store_after self max_retry timeout w :
  store_after self (w_client w)
    (acquire (gateway_execute latency) self max_retry timeout w).1
    (w_client (acquire (gateway_execute latency) self max_retry timeout w).2).
Proof.
  unfold acquire, acquire_retries.
  pose proof (gateway_attempt_store_after self w) as Hattempt.
  destruct (_acquire_lock _ self w) as [[v|e] w']; cbn [fst snd] in *; [done|].
  pose proof (gateway_loop_store_after self max_retry timeout (Z.to_nat max_retry)
                0 e w' (w_client w) Hattempt) as Hloop.
  by destruct (_lock_not_acquired _ _ _ _ _ _ _ _) as [[r n] w''].
Qed.

(** X10.  On the storage gateway [acquire], whatever its outcome and however
    often it retried, leaves the schema and every claim record but the
    engine's own as they were; after a BusyLock failure the engine's record
    is gone, after any other outcome (success included) it is in the
    store. *)
Theorem acquire_touches_own_record_only self max_retry timeout w :
  let key := (_lock_table self, _lock_id self, _claim_id self) in
  let out := acquire (gateway_execute latency) self max_retry timeout w in
  st_tables (w_client out.2) = st_tables (w_client w)
  ∧ (∀ k, k ≠ key -> st_rows (w_client out.2) !! k = st_rows (w_client w) !! k)
  ∧ if is_busy_outcome out.1 then st_rows (w_client out.2) !! key = None
    else is_Some (st_rows (w_client out.2) !! key).
Proof. apply gateway_acquire_store_after. Qed.

(** X11.  On the storage gateway [acquire] followed by [release] is a round
    trip: whatever the outcome of [acquire], the release succeeds and leaves
    the schema as it was and the rows as they were without the engine's
    record, so unchanged if the engine had no record before. *)
Theorem acquire_release_round_trip self max_retry timeout w :
  let key := (_lock_table self, _lock_id self, _claim_id self) in
  let out := acquire (gateway_execute latency) self max_retry timeout w in
  let released := release (gateway_execute latency) self out.2 in
  released.1 = Ok VNone
  ∧ st_tables (w_client released.2) = st_tables (w_client w)
  ∧ st_rows (w_client released.2) = delete key (st_rows (w_client w))
  ∧ (st_rows (w_client w) !! key = None ->
     st_rows (w_client released.2) = st_rows (w_client w)).
Proof.
  cbn zeta.
  destruct (gateway_acquire_store_after self max_retry timeout w) as (Htables & Hrows & _).
  rewrite release_eq, gateway_delete. cbn.
  assert (delete (_lock_table self, _lock_id self, _claim_id self)
            (st_rows (w_client (acquire (gateway_execute latency) self max_retry timeout w).2))
          = delete (_lock_table self, _lock_id self, _claim_id self) (st_rows (w_client w)))
    as Hdelete.
  { apply map_eq. intros k.
    destruct (decide (k = (_lock_table self, _lock_id self, _claim_id self))) as [->|Hk].
    - by rewrite !lookup_delete_eq.
    - rewrite !lookup_delete_ne by done. by apply Hrows. }
  split_and!; [done|done|done|].
  intros Habsent. rewrite Hdelete. by apply delete_id.
Qed.

(** X12.  On the storage gateway, when the TTL exceeds the latency of a
    statement and no live claim record of the lock name is earlier than the
    claim identifier [with_lock] is about to draw, [with_lock] acquires at
    its first attempt, whatever the retry policy, calls the unit of work on
    the store that attempt left and fires with its outcome. *)
Theorem with_lock_free_lock_runs_work
    lock_table lock_id func ttl max_retry timeout w :
  latency < ttl ->
  (∀ claim expires,
     st_rows (w_client w) !! (lock_table, lock_id, claim) = Some expires ->
     st_now (w_client w) + latency < expires ->
     w_uuid w <= claim) ->
  let self := (BasicLock_init lock_table lock_id ttl w).1 in
  let w0 := (BasicLock_init lock_table lock_id ttl w).2 in
  let attempt := _acquire_lock (gateway_execute latency) self w0 in
  let out := with_lock (gateway_execute latency) lock_table lock_id func
               ttl max_retry timeout w in
  acquire (gateway_execute latency) self max_retry timeout w0 = (Ok (VBool true), attempt.2)
  ∧ out.1 = (func (w_client attempt.2)).1
  ∧ st_rows (w_client out.2) !! (lock_table, lock_id, w_uuid w) = None.
Proof.
  intros Httl Hfree self w0 attempt out.
  assert (attempt.1 = Ok (VBool true)) as Hwins
    by (apply gateway_attempt_wins; by split).
  assert (acquire (gateway_execute latency) self max_retry timeout w0
          = (Ok (VBool true), attempt.2)) as Hacq.
  { unfold acquire, acquire_retries. fold attempt.
    destruct attempt as [r w1]. cbn in Hwins. by subst r. }
  split; [done|]. subst out. rewrite with_lock_eq. cbn zeta. fold self w0.
  rewrite Hacq. change lock_table with (_lock_table self) at 1 2.
  rewrite gateway_delete. cbn. split; [done|]. apply lookup_delete_eq.
Qed.

(** X13.  On the storage gateway, once the lock is acquired [with_lock]
    fires with the outcome of the unit of work, result or failure, and
    leaves no claim record of its own, whatever the unit of work did to the
    store; the records of others are as the unit of work left them. *)
Theorem with_lock_leaves_no_record
    lock_table lock_id func ttl max_retry timeout w v0 w1 :
  let self := (BasicLock_init lock_table lock_id ttl w).1 in
  let w0 := (BasicLock_init lock_table lock_id ttl w).2 in
  let key := (lock_table, lock_id, w_uuid w) in
  acquire (gateway_execute latency) self max_retry timeout w0 = (Ok v0, w1) ->
  let out := with_lock (gateway_execute latency) lock_table lock_id func
               ttl max_retry timeout w in
  out.1 = (func (w_client w1)).1
  ∧ st_rows (w_client out.2) !! key = None
  ∧ st_rows (w_client out.2) = delete key (st_rows (func (w_client w1)).2)
  ∧ st_tables (w_client out.2) = st_tables (func (w_client w1)).2.
Proof.
  intros self w0 key Hacq out. subst out. rewrite with_lock_eq. cbn zeta.
  fold self w0. rewrite Hacq.
  change lock_table with (_lock_table self) at 1 2 3 4.
  rewrite gateway_delete. cbn. split_and!; try done. apply lookup_delete_eq.
Qed.

End MoreGatewayProperties.

(** ** The further properties on concrete runs *)

Section MoreRuns.
Import Gateway Scenario Scenario2.

(** Engine A acquires the free lock at once. *)
Lemma acquire_success_verified_witness :
  (acquire ex engineA 5 10 world0).1 = Ok (VBool true)
  ∧ ∃ older,
      w_log (acquire ex engineA 5 10 world0).2
      = [EvCompare (CUuid 1) 1; read_of engineA; write_of engineA] ++ older.
Proof.
  assert ((acquire ex engineA 5 10 world0).1 = Ok (VBool true)) as Hok
    by (by vm_compute).
  split; [exact Hok|].
  exact (proj2 (acquire_success_verified ex engineA 5 10 world0 (VBool true) Hok)).
Defined.

(** A negative retry budget against the held lock: one attempt, BusyLock. *)
Lemma acquire_without_retries_witness :
  acquire ex engineB (-1) 10 world_held = _acquire_lock ex engineB world_held
  ∧ (acquire ex engineB (-1) 10 world_held).1 = Err (BusyLockError "locks" "jobs-queue").
Proof.
  assert (-1 <= 0) as Hmax by lia.
  pose proof (acquire_without_retries ex engineB (-1) 10 world_held Hmax) as Heq.
  split; [exact Heq|]. rewrite Heq. by vm_compute.
Defined.

(** Engine B waits out the claim of engine A: two attempts end in BusyLock,
    the third one succeeds once A's record has expired. *)
Lemma acquire_stops_at_first_settled_attempt_witness :
  contended tick_ex engineB 10 2 world_expiring = true
  ∧ contended tick_ex engineB 10 3 world_expiring = false
  ∧ (acquire_retries tick_ex engineB 5 10 world_expiring).1 = (Ok (VBool true), 2).
Proof.
  assert (contended tick_ex engineB 10 2 world_expiring = true) as Hcont
    by (by vm_compute).
  split; [exact Hcont|]. split; [by vm_compute|].
  rewrite (acquire_stops_at_first_settled_attempt tick_ex engineB 5 10 2 world_expiring
             ltac:(cbn; lia) Hcont ltac:(by vm_compute)).
  by vm_compute.
Defined.

(** [with_lock] with no retry against the held lock: BusyLock at once, and
    the unit of work is not called. *)
Lemma with_lock_work_needs_lock_witness :
  (with_lock ex "locks" "jobs-queue" work_ok 5 0 10 world_held).1
    = Err (BusyLockError "locks" "jobs-queue")
  ∧ count is_func (w_log (with_lock ex "locks" "jobs-queue" work_ok 5 0 10 world_held).2)
    = 0%nat.
Proof.
  destruct (with_lock_work_needs_lock ex "locks" "jobs-queue" work_ok 5 0 10 world_held)
    as [(evs & Hlog & Hfunc) Hfail].
  rewrite (Hfail (BusyLockError "locks" "jobs-queue") ltac:(by vm_compute)).
  split; by vm_compute.
Defined.

(** The unit of work wipes the table; [with_lock] still fires with its
    result and leaves no record. *)
Lemma with_lock_leaves_no_record_witness :
  let out := with_lock ex "locks" "jobs-queue" work_wipes 5 5 10 world0 in
  out.1 = Ok (VStr "wiped")
  ∧ st_rows (w_client out.2) !! ("locks", "jobs-queue", 1) = None.
Proof.
  cbn zeta.
  edestruct (with_lock_leaves_no_record 0 "locks" "jobs-queue" work_wipes 5 5 10 world0)
    as (Hout & Hnone & _); [by vm_compute|].
  unfold ex. split; [by rewrite Hout | exact Hnone].
Defined.

(** [with_lock] on the free lock of an empty store. *)
Lemma with_lock_free_lock_runs_work_witness :
  let out := with_lock ex "locks" "jobs-queue" work_ok 5 5 10 world0 in
  out.1 = Ok (VInt 42)
  ∧ st_rows (w_client out.2) !! ("locks", "jobs-queue", 1) = None.
Proof.
  cbn zeta.
  edestruct (with_lock_free_lock_runs_work 0 "locks" "jobs-queue" work_ok 5 5 10 world0)
    as (_ & Hout & Hnone).
  - lia.
  - intros claim expires Hrow. cbn in Hrow. by rewrite lookup_empty in Hrow.
  - unfold ex. split; [by rewrite Hout | exact Hnone].
Defined.

(** Rows without the claim column: KeyError at once, the record stays. *)
Lemma unreadable_response_not_retried_witness :
  first_claim (VRows [ {[ "lockId" := CStr "jobs-queue" ]} ]) = Err (KeyError "claimId")
  ∧ (acquire_retries keyless_ex engineA 5 10 world0).1 = (Err (KeyError "claimId"), 0)
  ∧ is_Some (st_rows (w_client (acquire_retries keyless_ex engineA 5 10 world0).2)
               !! ("locks", "jobs-queue", 1)).
Proof.
  split; [reflexivity|].
  edestruct (unreadable_response_not_retried keyless_ex engineA 5 10 world0)
    as [_ Hacq]; [reflexivity | reflexivity | reflexivity |].
  rewrite Hacq. split; [done|]. vm_compute. eauto.
Defined.

End MoreRuns.
